(** * Locale resolution and branding substitution of [app/i18n/index.ts]

    A shallow embedding of the i18n module of the mobile client: the
    language registry, [getLocaleFromLanguage], [applyBranding],
    [loadTranslation], [getTranslations], [getLocalizedMessage] and
    [resetMomentLocale], followed by the properties of these functions.

    Conventions of the embedding.
    - A JavaScript string is a Rocq [string]: the bytes of its UTF-8
      encoding.  The module only inspects strings for the ASCII separator
      [-] and for the ASCII letters of [Mattermost]; in UTF-8 every byte
      of a non-ASCII character is at least 128, so searching bytes and
      searching UTF-16 code units find the same occurrences.
    - The own properties of a JavaScript object used as a dictionary
      ([Record<string, string>], an imported JSON catalog) are a
      [gmap string _].  Reading [obj[key]] of an object literal or of the
      result of [Object.fromEntries] finds an own property first and then
      the properties inherited from [Object.prototype]; these are modelled
      in [ObjectPrototype].  The registry of languages is the exception:
      the helper that builds it is not among the sources, and it is read
      by its own keys.
    - Code that can throw returns an [outcome]; code with effects
      ([require], [logError], [moment.locale]) lives in a
      state-and-exception monad over [World]. *)

From Stdlib Require Import Ascii String List Bool Arith Lia.
From stdpp Require Import base option gmap strings list fin_maps pretty.

Local Open Scope string_scope.

(** ** Outcomes *)

Definition Error : Type := string.

Inductive outcome (A : Type) : Type :=
| Returned (a : A)
| Thrown (e : Error).
Arguments Returned {A} a.
Arguments Thrown {A} e.

#[export] Instance outcome_ret : MRet outcome := λ A a, Returned a.

#[export] Instance outcome_bind : MBind outcome := λ A B f o,
  match o with
  | Returned a => f a
  | Thrown e => Thrown e
  end.

#[export] Instance outcome_fmap : FMap outcome := λ A B f o,
  match o with
  | Returned a => Returned (f a)
  | Thrown e => Thrown e
  end.

(** [array.map(f)] for a callback that can throw. *)
Fixpoint mapThrowing {A B} (f : A → outcome B) (l : list A) : outcome (list B) :=
  match l with
  | [] => Returned []
  | a :: rest =>
      match f a with
      | Thrown e => Thrown e
      | Returned b =>
          match mapThrowing f rest with
          | Thrown e => Thrown e
          | Returned bs => Returned (b :: bs)
          end
      end
  end.

(** ** Strings *)

Module Str.

(** [Canonicalize] of a regular expression with flag [i] and without
    flag [u]: the character is mapped to upper case; a character outside
    ASCII is never identified with an ASCII one.  On bytes: [a]..[z] go
    to [A]..[Z], everything else is kept. *)
Definition canonicalize (c : ascii) : ascii :=
  let n := nat_of_ascii c in
  if (97 <=? n)%nat && (n <=? 122)%nat then ascii_of_nat (n - 32) else c.

Definition sameChar (a c : ascii) : bool :=
  Ascii.eqb (canonicalize a) (canonicalize c).

(** The pattern [p] matches case-insensitively at the start of [s]. *)
Fixpoint matchesAt (p s : string) : bool :=
  match p with
  | EmptyString => true
  | String a p' =>
      match s with
      | EmptyString => false
      | String c s' => sameChar a c && matchesAt p' s'
      end
  end.

(** The pattern matches somewhere in [s]: what [s.match(/p/gi)] tests,
    which is [null] exactly when there is no occurrence. *)
Fixpoint hasMatch (p s : string) : bool :=
  match s with
  | EmptyString => matchesAt p s
  | String _ s' => matchesAt p s || hasMatch p s'
  end.

(** [s.replace(/p/gi, r)] for a non-empty literal pattern [p] and a
    replacement [r] without [$]: the scan goes from left to right; at an
    occurrence it emits [r] and resumes after the occurrence, elsewhere
    it copies one character.  [skip] counts the characters of the
    current occurrence that are still to be passed over. *)
Fixpoint replaceFrom (p r : string) (skip : nat) (s : string) : string :=
  match s with
  | EmptyString => EmptyString
  | String c s' =>
      match skip with
      | S k => replaceFrom p r k s'
      | O =>
          if matchesAt p s
          then r +:+ replaceFrom p r (String.length p - 1) s'
          else String c (replaceFrom p r 0 s')
      end
  end.

Definition replaceAll (p r s : string) : string := replaceFrom p r 0 s.

(** [s.split(sep)] for a one-character separator: the pieces between
    the separators, at least one piece. *)
Fixpoint split (sep : ascii) (s : string) : list string :=
  match s with
  | EmptyString => [EmptyString]
  | String c s' =>
      if Ascii.eqb c sep then EmptyString :: split sep s'
      else match split sep s' with
           | piece :: pieces => String c piece :: pieces
           | [] => [String c EmptyString]
           end
  end.

(** [s.split(sep)[0]] *)
Definition firstPiece (sep : ascii) (s : string) : string :=
  match split sep s with
  | piece :: _ => piece
  | [] => EmptyString
  end.

Fixpoint drop (n : nat) (s : string) : string :=
  match n, s with
  | S k, String _ s' => drop k s'
  | _, _ => s
  end.

Fixpoint take (n : nat) (s : string) : string :=
  match n, s with
  | S k, String c s' => String c (take k s')
  | _, _ => EmptyString
  end.

(** [s.replace(/p/gi, f)] for a function [f]: the same scan; at an
    occurrence [f] is called with the matched text and what it returns
    is emitted as it is; when [f] throws, so does the call. *)
Fixpoint replaceFromWith (p : string) (f : string → outcome string) (skip : nat)
  (s : string) : outcome string :=
  match s with
  | EmptyString => Returned EmptyString
  | String c s' =>
      match skip with
      | S k => replaceFromWith p f k s'
      | O =>
          if matchesAt p s
          then match f (take (String.length p) s) with
               | Thrown e => Thrown e
               | Returned r =>
                   match replaceFromWith p f (String.length p - 1) s' with
                   | Thrown e => Thrown e
                   | Returned t => Returned (r +:+ t)
                   end
               end
          else match replaceFromWith p f 0 s' with
               | Thrown e => Thrown e
               | Returned t => Returned (String c t)
               end
      end
  end.

Definition replaceAllWith (p : string) (f : string → outcome string) (s : string)
  : outcome string :=
  replaceFromWith p f 0 s.

End Str.

(** ** What every ordinary object inherits

    The properties of [Object.prototype], by what each of them is when
    [String.prototype.replace] receives it as its second argument.  A
    function is called with [this] undefined and the matched text as its
    first argument, and its result is converted to a string: [Object]
    (the [constructor]) wraps the match, which converts back to the
    match; [toString] answers [[object Undefined]]; [isPrototypeOf]
    answers [false] for a string; the other methods convert [this] to an
    object first, which throws a [TypeError].  [__proto__] reads as the
    prototype itself, which is not callable and converts to
    [[object Object]].  The message of the [TypeError] depends on the
    engine and is not modelled. *)

Module ObjectPrototype.

Definition typeError : Error := "TypeError".

Inductive member : Type :=
| Function (call : string → outcome string)
| NotCallable (text : string).

(** The methods that convert [this] to an object before anything else. *)
Definition needReceiver : list string :=
  [ "valueOf"; "toLocaleString"; "hasOwnProperty"; "propertyIsEnumerable";
    "__defineGetter__"; "__defineSetter__"; "__lookupGetter__"; "__lookupSetter__" ].

Definition inherited (key : string) : option member :=
  if decide (key = "constructor") then Some (Function (λ matched, Returned matched))
  else if decide (key = "toString")
  then Some (Function (λ _, Returned "[object Undefined]"))
  else if decide (key = "isPrototypeOf") then Some (Function (λ _, Returned "false"))
  else if decide (key = "__proto__") then Some (NotCallable "[object Object]")
  else if decide (key ∈ needReceiver) then Some (Function (λ _, Thrown typeError))
  else None.

Definition has (key : string) : bool :=
  match inherited key with
  | Some _ => true
  | None => false
  end.

End ObjectPrototype.

(** ** Values and dictionaries *)

(** What reading a key of a catalog can give: a value of the imported
    JSON, or the member of [Object.prototype] of that name.  The catalogs
    are declared as string tables, but [applyBranding] tests
    [typeof value] and so provides for other values; they are kept here.
    Numbers are integers, which is all that their only use (the truth
    test of [||]) needs. *)
#[local] Set Warnings "-register-all".
Inductive jsval : Type :=
| JString (s : string)
| JNull
| JBool (b : bool)
| JNumber (n : Z)
| JArray (items : list jsval)
| JObject (fields : list (string * jsval))
| JInherited (name : string).

Definition isString (v : jsval) : bool :=
  match v with JString _ => true | _ => false end.

(** [ToBoolean] *)
Definition truthy (v : jsval) : bool :=
  match v with
  | JString s => negb (String.eqb s "")
  | JNull => false
  | JBool b => b
  | JNumber n => negb (Z.eqb n 0)
  | JArray _ | JObject _ | JInherited _ => true
  end.

(** [a || d] where [a] is a string or [undefined] and [d] is a string. *)
Definition orString (a : option string) (d : string) : string :=
  match a with
  | Some s => if String.eqb s "" then d else s
  | None => d
  end.

(** [a || b] where both sides are a string or [undefined]. *)
Definition orElse (a b : option string) : option string :=
  match a with
  | Some s => if String.eqb s "" then b else a
  | None => b
  end.

(** [ToString] of a string or [undefined], as [replace] applies it to
    its second argument. *)
Definition toText (a : option string) : string := default "undefined" a.

(** Modelled from the spec: [@utils/key_mirror] is not among the sources.
    The registry it builds maps every known language identifier to a
    canonical locale code, and the canonical locales are the keys
    themselves: each key of the argument is mapped to itself. *)
Definition keyMirror (obj : gmap string jsval) : gmap string string :=
  map_imap (λ key _, Some key) obj.

(** [app/i18n/languages.ts] *)
Definition languages : gmap string string :=
  keyMirror (<["en" := JNull]> (<["fa" := JNull]> ∅)).

Definition PRIMARY_LOCALE : string := "fa".

Definition BRAND_NAME_PER_LOCALE : gmap string string :=
  <["en" := "Andisheh Hosseini Elementary"]>
  (<["fa" := "دبستان اندیشه حسینی"]> ∅).

(** The literal of [MATTERMOST_REGEX = /Mattermost/gi]. *)
Definition MATTERMOST : string := "Mattermost".

(** ** Branding *)

(** What reading [obj[key]] gives for an object literal whose own
    properties are strings. *)
Inductive property : Type :=
| Own (text : string)
| Inherited (m : ObjectPrototype.member)
| Undefined.

Definition getProperty (obj : gmap string string) (key : string) : property :=
  match obj !! key with
  | Some text => Own text
  | None =>
      match ObjectPrototype.inherited key with
      | Some m => Inherited m
      | None => Undefined
      end
  end.

(** [a || b] on what such reads give: the empty string and [undefined]
    are falsy, a function or an object is truthy. *)
Definition orProperty (a b : property) : property :=
  match a with
  | Own text => if String.eqb text "" then b else a
  | Inherited _ => a
  | Undefined => b
  end.

Definition brandName (locale : string) : property :=
  orProperty (getProperty BRAND_NAME_PER_LOCALE locale)
    (getProperty BRAND_NAME_PER_LOCALE PRIMARY_LOCALE).

(** [value.replace(MATTERMOST_REGEX, brandName)] *)
Definition replaceToken (brand : property) (s : string) : outcome string :=
  match brand with
  | Own text => Returned (Str.replaceAll MATTERMOST text s)
  | Inherited (ObjectPrototype.Function call) =>
      Str.replaceAllWith MATTERMOST call s
  | Inherited (ObjectPrototype.NotCallable text) =>
      Returned (Str.replaceAll MATTERMOST text s)
  | Undefined => Returned (Str.replaceAll MATTERMOST (toText None) s)
  end.

(** The arrow function mapped over the entries. *)
Definition brandEntry (brand : property) (entry : string * jsval)
  : outcome (string * jsval) :=
  let '(key, value) := entry in
  match value with
  | JString s =>
      if Str.hasMatch MATTERMOST s
      then (λ s', (key, JString s')) <$> replaceToken brand s
      else Returned (key, value)
  | _ => Returned (key, value)
  end.

Definition applyBranding (translations : gmap string jsval) (locale : string)
  : outcome (gmap string jsval) :=
  list_to_map <$> mapThrowing (brandEntry (brandName locale)) (map_to_list translations).

(** The same function on objects held in a store: [Object.entries] reads
    the object at [translations], and [Object.fromEntries] allocates the
    result at a fresh address, which is returned; when the callback
    throws, no object has been added. *)
Module Store.

Abbreviation heap := (gmap positive (gmap string jsval)).

Definition applyBranding (translations : positive) (locale : string) (h : heap)
  : option (outcome positive * heap) :=
  match h !! translations with
  | Some obj =>
      match applyBranding obj locale with
      | Returned output =>
          let result := fresh (dom h) in
          Some (Returned result, <[result := output]> h)
      | Thrown e => Some (Thrown e, h)
      end
  | None => None
  end.

End Store.

(** ** Locale resolution *)

Definition getLocaleFromLanguage (lang : string) : string :=
  let languageCode := Str.firstPiece "-" lang in
  orString (orElse (languages !! lang) (languages !! languageCode)) PRIMARY_LOCALE.

(** ** Effects *)

(** The part of the process the module acts on: the modules registered by
    [require], the calls of [logError], the process-wide locale of the
    date library; and, as the environment, the modules whose loading
    throws. *)
Record World : Type := mkWorld {
  broken : gmap string Error;
  registered : list string;
  logged : list (string * Error);
  momentLocale : string;
}.

Definition M (A : Type) : Type := World → outcome A * World.

#[export] Instance M_ret : MRet M := λ A a w, (Returned a, w).

#[export] Instance M_bind : MBind M := λ A B f m w,
  match m w with
  | (Returned a, w') => f a w'
  | (Thrown e, w') => (Thrown e, w')
  end.

(** [try { body } catch (e) { handler }] *)
Definition tryCatch {A} (body : M A) (handler : Error → M A) : M A := λ w,
  match body w with
  | (Thrown e, w') => handler e w'
  | r => r
  end.

Definition require (module : string) : M unit := λ w,
  match broken w !! module with
  | Some e => (Thrown e, w)
  | None => (Returned tt,
             mkWorld (broken w) (module :: registered w) (logged w) (momentLocale w))
  end.

Definition logError (message : string) (e : Error) : M unit := λ w,
  (Returned tt,
   mkWorld (broken w) (registered w) ((message, e) :: logged w) (momentLocale w)).

(** A value or an exception, with no effect. *)
Definition fromOutcome {A} (o : outcome A) : M A := λ w, (o, w).

(** [moment.locale(key)]: for a key that is not empty the library looks
    for a locale it has loaded under the key, normalising the key as it
    does ([getLocale], a parameter: the table of the library is outside
    the repository); the locale it finds becomes the process-wide locale,
    and when it finds none the process-wide locale stays as it was. *)
Definition moment_locale (getLocale : string → option string) (key : string)
  : M unit := λ w,
  (Returned tt,
   if String.eqb key "" then w
   else match getLocale key with
        | Some found => mkWorld (broken w) (registered w) (logged w) found
        | None => w
        end).

Definition localeData (locale : string) : list string :=
  [ "@formatjs/intl-pluralrules/locale-data/" +:+ locale;
    "@formatjs/intl-numberformat/locale-data/" +:+ locale;
    "@formatjs/intl-datetimeformat/locale-data/" +:+ locale;
    "@formatjs/intl-listformat/locale-data/" +:+ locale;
    "@formatjs/intl-relativetimeformat/locale-data/" +:+ locale ].

Fixpoint requireAll (modules : list string) : M unit :=
  match modules with
  | [] => mret tt
  | m :: rest => require m ;; requireAll rest
  end.

Section I18n.

(** The bundled catalogs [@assets/i18n/en.json] and [@assets/i18n/fa.json],
    the language tags reported by [getLocales()], and the lookup of a
    locale in the date library. *)
Variables en fa : gmap string jsval.
Variable deviceLocales : list string.
Variable getLocale : string → option string.

Definition deviceLocale : string := orString (head deviceLocales) PRIMARY_LOCALE.

Definition DEFAULT_LOCALE : string := getLocaleFromLanguage deviceLocale.

Definition loadTranslation (locale : option string) : M (gmap string jsval) :=
  tryCatch
    (translations ←
       (if decide (locale = Some "fa")
        then requireAll (localeData "fa") ;; mret fa
        else requireAll (localeData "en") ;; mret en);
     fromOutcome (applyBranding translations (orString locale PRIMARY_LOCALE)))
    (λ e,
       logError "NO Translation found" e ;;
       fromOutcome (applyBranding en PRIMARY_LOCALE)).

Definition resetMomentLocale (locale : option string) : M unit :=
  moment_locale getLocale
    (orString (Str.firstPiece "-" <$> locale) (Str.firstPiece "-" DEFAULT_LOCALE)).

Definition getTranslations (lang : string) : M (gmap string jsval) :=
  let locale := getLocaleFromLanguage lang in
  loadTranslation (Some locale).

Definition getLocalizedMessage (lang id : string) (defaultMessage : option string)
  : M jsval :=
  let locale := getLocaleFromLanguage lang in
  translations ← getTranslations locale;
  mret (match translations !! id with
        | Some v => if truthy v then v else JString (orString defaultMessage "")
        | None =>
            if ObjectPrototype.has id then JInherited id
            else JString (orString defaultMessage "")
        end).

End I18n.

(** ** The vocabulary of the specification *)

Module Spec.

(** The closed set of canonical locales. *)
Definition canonicalLocales : list string := ["en"; "fa"].

(** The bare language code: the portion of a tag before its first [-]. *)
Fixpoint bareCode (tag : string) : string :=
  match tag with
  | EmptyString => EmptyString
  | String c rest =>
      if Ascii.eqb c "-" then EmptyString else String c (bareCode rest)
  end.

(** The resolution algorithm, step by step: the full tag, then the bare
    language code, then the primary locale. *)
Definition resolve (tag : string) : string :=
  match languages !! tag with
  | Some locale => locale
  | None =>
      match languages !! bareCode tag with
      | Some locale => locale
      | None => PRIMARY_LOCALE
      end
  end.

(** The brand string configured for a locale, or the one of the primary
    locale when the locale has no entry. *)
Definition brandFor (locale : string) : string :=
  match BRAND_NAME_PER_LOCALE !! locale with
  | Some brand => brand
  | None => default "" (BRAND_NAME_PER_LOCALE !! PRIMARY_LOCALE)
  end.

(** A text cut at occurrences of the token: [u0 m1 u1 ... mn un], given
    as [u0] and the pairs [(mi, ui)]. *)
Fixpoint assemble (u0 : string) (parts : list (string * string)) : string :=
  match parts with
  | [] => u0
  | (m, u) :: rest => u0 +:+ m +:+ assemble u rest
  end.

(** [m] is the token in some casing. *)
Definition isCasing (m : string) : bool :=
  (String.length m =? String.length MATTERMOST)%nat && Str.matchesAt MATTERMOST m.

(** The cut is at every occurrence: each [mi] is the token in some casing
    and no [ui] contains the token. *)
Definition cutAtToken (u0 : string) (parts : list (string * string)) : bool :=
  negb (Str.hasMatch MATTERMOST u0)
  && forallb (λ part, isCasing part.1 && negb (Str.hasMatch MATTERMOST part.2)) parts.


(** No occurrence of the token is left in a value. *)
Definition tokenFree (v : jsval) : Prop :=
  match v with
  | JString s => Str.hasMatch MATTERMOST s = false
  | _ => True
  end.

(** The message catalog of a canonical locale. *)
Definition catalogOf (en fa : gmap string jsval) (locale : string)
  : gmap string jsval :=
  if decide (locale = "fa") then fa else en.

(** The error of the first module of the list whose loading throws. *)
Fixpoint loadFailure (broken : gmap string Error) (modules : list string)
  : option Error :=
  match modules with
  | [] => None
  | m :: rest =>
      match broken !! m with
      | Some e => Some e
      | None => loadFailure broken rest
      end
  end.

(** The modules of the list that come before the first one whose loading
    throws. *)
Fixpoint loadable (broken : gmap string Error) (modules : list string)
  : list string :=
  match modules with
  | [] => []
  | m :: rest =>
      match broken !! m with
      | Some _ => []
      | None => m :: loadable broken rest
      end
  end.

(** The caller's default message, or the empty string. *)
Definition defaultOrEmpty (defaultMessage : option string) : jsval :=
  match defaultMessage with
  | Some text => JString text
  | None => JString EmptyString
  end.

(** A value with the brand text in place of every occurrence of the
    token, and a catalog with every value so treated, for the brand of a
    locale. *)
Definition brandedValue (brand : string) (value : jsval) : jsval :=
  match value with
  | JString s =>
      if Str.hasMatch MATTERMOST s
      then JString (Str.replaceAll MATTERMOST brand s)
      else value
  | _ => value
  end.

Definition branded (locale : string) (catalog : gmap string jsval)
  : gmap string jsval :=
  brandedValue (brandFor locale) <$> catalog.

(** Some string value of the catalog holds the token. *)
Definition holdsToken (catalog : gmap string jsval) : Prop :=
  ∃ key s, catalog !! key = Some (JString s) ∧ Str.hasMatch MATTERMOST s = true.

(** The catalog served for a tag, given the modules whose loading throws:
    the catalog of the resolved locale under its brand name, or the
    English catalog under the primary brand name after a failure. *)
Definition served (en fa : gmap string jsval) (broken : gmap string Error)
  (lang : string) : gmap string jsval :=
  match loadFailure broken (localeData (getLocaleFromLanguage lang)) with
  | Some _ => branded PRIMARY_LOCALE en
  | None =>
      branded (getLocaleFromLanguage lang)
        (catalogOf en fa (getLocaleFromLanguage lang))
  end.

(** The message of a catalog for a key: its truthy value, or else the
    default. *)
Definition messageOf (catalog : gmap string jsval) (id : string)
  (defaultMessage : option string) : jsval :=
  match catalog !! id with
  | Some v => if truthy v then v else defaultOrEmpty defaultMessage
  | None => defaultOrEmpty defaultMessage
  end.

End Spec.

(** ** Sample catalogs and worlds *)

Module Demo.

Definition en : gmap string jsval :=
  <["about.title" := JString "About Mattermost"]>
  (<["draft.hint" := JString ""]> (<["ok" := JString "OK"]> ∅)).

Definition fa : gmap string jsval :=
  <["about.title" := JString "درباره Mattermost"]> (<["ok" := JString "تایید"]> ∅).

Definition healthy : World := mkWorld ∅ [] [] "en".

(** A process in which the list-format data of [locale] cannot be loaded. *)
Definition failing (locale : string) : World :=
  mkWorld
    (<["@formatjs/intl-listformat/locale-data/" +:+ locale := "Cannot find module"]> ∅)
    [] [] "en".

(** A sample of the date library: of the locales that
    [moment/min/locales] brings it has [de], [en] and [fa], under their
    own names. *)
Definition getLocale (key : string) : option string :=
  if decide (key ∈ ["de"; "en"; "fa"]) then Some key else None.

End Demo.

(** ** The update check

    [checkForUpdates], the caller of [getLocalizedMessage] and
    [DEFAULT_LOCALE].  The network, the [semver] library and the alert
    dialog are outside the repository: the response of [fetch], the
    application version and [coerce] are parameters, an alert is recorded
    in the state, and [gt] is the order of [semver] on the versions
    [coerce] produces (three numbers, no pre-release tag).  The manifest
    is taken at its declared type. *)

Module SemVer.

Record t : Type := make { major : N; minor : N; patch : N }.

(** The property [version] of a [SemVer] object. *)
Definition version (v : t) : string :=
  pretty (major v) +:+ "." +:+ pretty (minor v) +:+ "." +:+ pretty (patch v).

(** [semver/functions/gt] on two such versions. *)
Definition gt (a b : t) : bool :=
  match N.compare (major a) (major b) with
  | Gt => true
  | Lt => false
  | Eq =>
      match N.compare (minor a) (minor b) with
      | Gt => true
      | Lt => false
      | Eq =>
          match N.compare (patch a) (patch b) with
          | Gt => true
          | _ => false
          end
      end
  end.

End SemVer.

Module Update.

Record RemoteVersionManifest : Type := mkManifest {
  version : option string;
  latest : option string;
  appVersion : option string;
  url : option string;
  downloadUrl : option string;
  link : option string;
}.

(** What [fetch] resolves to: [ok], and what [json()] gives. *)
Record Response : Type := mkResponse {
  ok : bool;
  json : Error + RemoteVersionManifest;
}.

(** A button of the alert; [onPress] is the address that the handler
    passes to [Linking.openURL], when the button has a handler. *)
Record AlertButton : Type := mkButton {
  text : jsval;
  style : option string;
  onPress : option string;
}.

(** A call of [Alert.alert]. *)
Record AlertCall : Type := mkAlert {
  title : jsval;
  message : string;
  buttons : list AlertButton;
  cancelable : bool;
}.

Record App : Type := mkApp {
  i18n : World;
  alerts : list AlertCall;
}.

Definition MU (A : Type) : Type := App → outcome A * App.

#[export] Instance MU_ret : MRet MU := λ A a s, (Returned a, s).

#[export] Instance MU_bind : MBind MU := λ A B f m s,
  match m s with
  | (Returned a, s') => f a s'
  | (Thrown e, s') => (Thrown e, s')
  end.

(** A computation of the i18n module, run on the i18n part of the state. *)
Definition lift {A} (m : M A) : MU A := λ s,
  let '(r, w') := m (i18n s) in (r, mkApp w' (alerts s)).

Definition throw {A} (e : Error) : MU A := λ s, (Thrown e, s).

(** [await p] for a promise that is fulfilled with a value or rejected. *)
Definition await {A} (p : Error + A) : MU A :=
  match p with
  | inl e => throw e
  | inr a => mret a
  end.

Definition Alert_alert (call : AlertCall) : MU unit := λ s,
  (Returned tt, mkApp (i18n s) (call :: alerts s)).

(** [ToBoolean] of a string or [undefined]. *)
Definition isTruthy (a : option string) : bool :=
  match a with
  | Some s => negb (String.eqb s "")
  | None => false
  end.

(** [s.replace(pattern, replacement)] for a non-empty string pattern and
    a replacement without [$]: the first occurrence is replaced. *)
Fixpoint replaceFirst (pattern replacement s : string) : string :=
  if String.prefix pattern s
  then replacement +:+ Str.drop (String.length pattern) s
  else match s with
       | EmptyString => EmptyString
       | String c s' => String c (replaceFirst pattern replacement s')
       end.

(** [template.replace('{version}', v)]: a method of strings; on a value
    that is not a string the call throws a [TypeError]. *)
Definition replaceVersion (template : jsval) (v : string) : MU string :=
  match template with
  | JString s => mret (replaceFirst "{version}" v s)
  | _ => throw "TypeError: messageTemplate.replace is not a function"
  end.

Section CheckForUpdates.

Variables en fa : gmap string jsval.
Variable deviceLocales : list string.

(** [coerce] of [semver], [nativeApplicationVersion] of [expo-application]
    and the outcome of [fetch(UPDATE_MANIFEST_URL)]. *)
Variable coerce : option string → option SemVer.t.
Variable nativeApplicationVersion : option string.
Variable fetched : Error + Response.

Definition localized (id defaultMessage : string) : MU jsval :=
  lift (getLocalizedMessage en fa (DEFAULT_LOCALE deviceLocales) id (Some defaultMessage)).

(** The body of the [try] block. *)
Definition attempt : MU unit :=
  response ← await fetched;
  if negb (ok response) then mret tt else
  manifest ← await (json response);
  let rawRemoteVersion :=
    orElse (orElse (version manifest) (latest manifest)) (appVersion manifest) in
  let remote := if isTruthy rawRemoteVersion then coerce rawRemoteVersion else None in
  let remoteVersion := SemVer.version <$> remote in
  let current := coerce nativeApplicationVersion in
  let currentVersion := SemVer.version <$> current in
  if negb (isTruthy remoteVersion) || negb (isTruthy currentVersion) then mret tt else
  if negb (match remote, current with
           | Some r, Some c => SemVer.gt r c
           | _, _ => false
           end) then mret tt else
  let downloadUrl :=
    orElse (orElse (url manifest) (downloadUrl manifest)) (link manifest) in
  title ← localized "update.available.title" "Update available";
  messageTemplate ← localized "update.available.message"
    "Version {version} is available. You can download the latest update now.";
  message ← replaceVersion messageTemplate (default "" remoteVersion);
  confirmText ← localized "update.available.confirm" "Update";
  cancelText ← localized "update.available.cancel" "Later";
  let buttons :=
    (mkButton cancelText (Some "cancel") None
     :: (if isTruthy downloadUrl then [mkButton confirmText None downloadUrl] else []))%list in
  Alert_alert (mkAlert title message buttons true).

Definition checkForUpdates (s : App) : App :=
  match attempt s with
  | (Returned _, s') => s'
  | (Thrown e, s') => (lift (logError "Failed to check for updates" e) s').2
  end.

End CheckForUpdates.

End Update.

(** A sample of the environment of the update check. *)
Module UpdateDemo.

Definition coerce (raw : option string) : option SemVer.t :=
  if decide (raw = Some "2.5.0") then Some (SemVer.make 2 5 0)
  else if decide (raw = Some "2.4.1") then Some (SemVer.make 2 4 1)
  else None.

Definition offer241 : Update.Response :=
  Update.mkResponse true
    (inr (Update.mkManifest None None (Some "2.4.1") None None None)).

Definition offer250 : Update.Response :=
  Update.mkResponse true
    (inr (Update.mkManifest (Some "") (Some "2.5.0") None None
            (Some "https://edu97.ir/app/latest.apk") (Some "https://edu97.ir"))).

End UpdateDemo.

(** ** The morning greeting preference

    [app/screens/settings]: the toggle of the settings screen writes the
    preference, and the observer of [index.tsx] reads it.  The database,
    the current user and the request that saves a preference are outside
    the sources: the outcome of each is a parameter.  The category
    [Preferences.CATEGORIES.MORNING_GREETING] is a constant of
    [@constants/preferences], taken as a parameter too. *)

Module Preference.

(** [PreferenceType] of [@typings/api/preferences]. *)
Record PreferenceType : Type := mkPreference {
  category : string;
  name : string;
  user_id : string;
  value : string;
}.

(** What the asynchronous steps of a save resolve to. *)
Record SaveEnv : Type := mkSaveEnv {
  getServerDatabaseAndOperator : Error + unit;
  getCurrentUserId : Error + string;
  savePreference : Error + unit;
}.

(** The requests made and the failures logged. *)
Record Effects : Type := mkEffects {
  saved : list (list PreferenceType);
  failures : list (string * Error);
}.

End Preference.

Module Settings.

Import Preference.

Record Screen : Type := mkScreen {
  isGreetingEnabled : bool;
  effects : Effects;
}.

(** [index.tsx]: the function mapped over the observed preferences. *)
Definition morningGreetingEnabled (prefs : list PreferenceType) : bool :=
  match value <$> head prefs with
  | None => true
  | Some v => negb (String.eqb v "false")
  end.

Section Settings.

Variable MORNING_GREETING : string.
Variable env : SaveEnv.

(** The [try] block of [onMorningGreetingChange]: the requests it makes,
    and whether it completes or throws. *)
Definition trySave (v : bool) (fx : Effects) : outcome unit * Effects :=
  match getServerDatabaseAndOperator env with
  | inl e => (Thrown e, fx)
  | inr _ =>
      match getCurrentUserId env with
      | inl e => (Thrown e, fx)
      | inr userId =>
          let pref :=
            mkPreference MORNING_GREETING "enabled" userId
              (if v then "true" else "false") in
          let fx' := mkEffects ([pref] :: saved fx) (failures fx) in
          match savePreference env with
          | inl e => (Thrown e, fx')
          | inr _ => (Returned tt, fx')
          end
      end
  end.

Definition onMorningGreetingChange (v : bool) (s : Screen) : Screen :=
  let s1 := mkScreen v (effects s) in
  match trySave v (effects s1) with
  | (Returned _, fx) => mkScreen (isGreetingEnabled s1) fx
  | (Thrown e, fx) =>
      mkScreen (negb (isGreetingEnabled s1))
        (mkEffects (saved fx)
           (("Failed to save morning greeting preference", e) :: failures fx))
  end.

End Settings.

End Settings.

(** ** The channel list screen

    [app/screens/home/channel_list/channel_list.tsx]: the handler of the
    hardware back button with its module-level counter and timer, and
    the morning greeting. *)

Module BackPress.

(** The module-level variables, the timers that are scheduled and have
    neither fired nor been cleared, and what the handler has emitted.
    Timer handles are positive numbers. *)
Record State : Type := mkState {
  backPressedCount : nat;
  backPressTimeout : option positive;
  pending : list positive;
  nextTimer : positive;
  toasts : nat;
  homeEvents : nat;
}.

(** What the handler reads at a press. *)
Record Press : Type := mkPress {
  isMainActivity : bool;
  navigationIsFocused : bool;
  visibleScreenIsHome : bool;
  visibleTabIsHome : bool;
}.

Definition initial : State := mkState 0 None [] 1 0 0.

Definition clearTimeout (h : positive) (pending : list positive) : list positive :=
  filter (λ h', h' ≠ h) pending.

Definition handleBackPress (p : Press) (st : State) : bool * State :=
  let isHomeScreen := visibleScreenIsHome p in
  let homeTab := visibleTabIsHome p in
  let focused := navigationIsFocused p && isHomeScreen && homeTab in
  if isMainActivity p then
    if (backPressedCount st =? 0)%nat && focused then
      let cleared :=
        match backPressTimeout st with
        | Some h => clearTimeout h (pending st)
        | None => pending st
        end in
      (true,
       mkState (S (backPressedCount st)) (Some (nextTimer st))
         (nextTimer st :: cleared) (Pos.succ (nextTimer st))
         (S (toasts st)) (homeEvents st))
    else if isHomeScreen && negb homeTab then
      (true,
       mkState (backPressedCount st) (backPressTimeout st) (pending st)
         (nextTimer st) (toasts st) (S (homeEvents st)))
    else (false, st)
  else (false, st).

(** The callback of the timer: it runs when a pending timer fires. *)
Definition timeoutFires (h : positive) (st : State) : State :=
  let fired := clearTimeout h (pending st) in
  let cleared :=
    match backPressTimeout st with
    | Some h' => clearTimeout h' fired
    | None => fired
    end in
  mkState 0 (backPressTimeout st) cleared (nextTimer st) (toasts st) (homeEvents st).

(** One event of the screen: a press of the back button, or a pending
    timer that fires. *)
Inductive step : State → State → Prop :=
| step_press (p : Press) (st : State) : step st (handleBackPress p st).2
| step_fire (h : positive) (st : State) :
    h ∈ pending st → step st (timeoutFires h st).

Definition reachable (st : State) : Prop := rtc step initial st.

End BackPress.

Module Greeting.

Import Preference.

(** The fields of the current user that the greeting reads. *)
Record UserModel : Type := mkUser {
  first_name : option string;
  username : string;
}.

Record Props : Type := mkProps {
  morningGreetingEnabled : bool;
  currentUser : option UserModel;
  lastMorningGreeting : option string;
}.

(** [now.getHours()] and [now.toISOString().slice(0, 10)]. *)
Record Clock : Type := mkClock {
  hour : nat;
  todayKey : string;
}.

(** The state of the component and its effects; an alert is recorded by
    the name it greets. *)
Record Screen : Type := mkScreen {
  hasShownGreeting : bool;
  greeted : list string;
  effects : Effects;
}.

Section Greeting.

Variable MORNING_GREETING : string.

(** [String.prototype.trim], and the translation of
    [greeting.morning.fallbackName]. *)
Variable trim : string → string.
Variable fallbackName : string.

Definition greetingName (user : UserModel) : string :=
  let name :=
    match first_name user with
    | Some first =>
        if (String.length (trim first) =? 0)%nat then username user else trim first
    | None => username user
    end in
  orString (Some name) fallbackName.

(** The [try] block that persists the day of the greeting. *)
Definition tryPersist (env : SaveEnv) (today : string) (fx : Effects)
  : outcome unit * Effects :=
  match getServerDatabaseAndOperator env with
  | inl e => (Thrown e, fx)
  | inr _ =>
      match getCurrentUserId env with
      | inl e => (Thrown e, fx)
      | inr userId =>
          let pref := mkPreference MORNING_GREETING "last_shown" userId today in
          let fx' := mkEffects ([pref] :: saved fx) (failures fx) in
          match savePreference env with
          | inl e => (Thrown e, fx')
          | inr _ => (Returned tt, fx')
          end
      end
  end.

Definition maybeShowGreeting (props : Props) (now : Clock) (env : SaveEnv)
  (s : Screen) : Screen :=
  if negb (morningGreetingEnabled props) || hasShownGreeting s then s else
  match currentUser props with
  | None => s
  | Some user =>
      if (hour now <? 5)%nat || (12 <=? hour now)%nat then s else
      if decide (lastMorningGreeting props = Some (todayKey now)) then s else
      let greeted' := greetingName user :: greeted s in
      match tryPersist env (todayKey now) (effects s) with
      | (Returned _, fx) => mkScreen true greeted' fx
      | (Thrown e, fx) =>
          mkScreen true greeted'
            (mkEffects (saved fx)
               (("Failed to persist morning greeting state", e) :: failures fx))
      end
  end.

End Greeting.

End Greeting.

(** ** The login form

    [app/screens/login/form.tsx]: what happens with the response of the
    login request.  The error of a response is a value of unknown shape;
    what [@utils/errors] and [react-intl] read off it are parameters. *)

Module Login.

Definition MFA_EXPECTED_ERRORS : list string :=
  [ "mfa.validate_token.authenticate.app_error";
    "ent.mfa.validate_token.authenticate.app_error" ].

Inductive Navigation : Type :=
| ToMfa
| ToHome (launchError : bool).

Record Form : Type := mkForm {
  isLoading : bool;
  error : option string;
  navigated : list Navigation;
}.

Section Login.

Variable E : Type.

(** [LoginActionResponse] *)
Record LoginActionResponse : Type := mkLoginResponse {
  failed : bool;
  loginError : option E;
}.

(** [Boolean(e)], [getServerError], [isServerError] (giving the
    [server_error_id]), [isErrorWithMessage], [typeof e === 'string'],
    [getFullErrorMessage] and the translation of
    [login.invalid_credentials]. *)
Variable toBoolean : E → bool.
Variable getServerError : option E → option string.
Variable isServerError : E → option string.
Variable isErrorWithMessage : E → bool.
Variable isString : E → bool.
Variable getFullErrorMessage : E → string.
Variable invalidCredentials : string.

Definition truthyError (e : option E) : bool :=
  match e with
  | Some e => toBoolean e
  | None => false
  end.

Definition isMFAError (e : option E) : bool :=
  match getServerError e with
  | Some serverError =>
      if String.eqb serverError "" then false
      else bool_decide (serverError ∈ MFA_EXPECTED_ERRORS)
  | None => false
  end.

Definition getLoginErrorMessage (e : E) : string :=
  match isServerError e with
  | Some errorId =>
      if String.eqb errorId "api.user.login.invalid_credentials_email_username"
         || (negb (isErrorWithMessage e) && negb (isString e))
      then invalidCredentials
      else getFullErrorMessage e
  | None => getFullErrorMessage e
  end.

Definition checkLoginResponse (data : LoginActionResponse) (f : Form) : bool * Form :=
  if failed data && isMFAError (loginError data) then
    (false, mkForm false (error f) (ToMfa :: navigated f))
  else
    match loginError data with
    | Some e =>
        if failed data && toBoolean e then
          (false, mkForm false (Some (getLoginErrorMessage e)) (navigated f))
        else (true, mkForm false (error f) (navigated f))
    | None => (true, mkForm false (error f) (navigated f))
    end.

Definition goToHome (launchError : bool) (e : option E) (f : Form) : Form :=
  mkForm (isLoading f) (error f) (ToHome (launchError || truthyError e) :: navigated f).

(** [signIn], once the login request has resolved to [result]. *)
Definition signIn (launchError : bool) (result : LoginActionResponse) (f : Form)
  : Form :=
  let '(proceed, f') := checkLoginResponse result f in
  if proceed then goToHome launchError (loginError result) f' else f'.

End Login.

End Login.

(** * Properties *)

Example replace_ex :
  Str.replaceAll "Mattermost" "Acme" "Mattermost and MATTERmost Desktop"
  = "Acme and Acme Desktop".
Proof. reflexivity. Qed.

Example split_ex : Str.split "-" "en-US-x" = ["en"; "US"; "x"].
Proof. reflexivity. Qed.

(** ** Scanning strings *)

Section Scan.

Implicit Types (p r s t u l m : string) (a c : ascii) (k n : nat).

#[local] Arguments String.append !_ _ / : simpl nomatch.

Lemma append_assoc l s t : (l +:+ s) +:+ t = l +:+ (s +:+ t).
Proof. induction l as [|c l IH]; simpl; [done | by rewrite IH]. Qed.

Lemma append_snoc l c t : (l +:+ String c "") +:+ t = l +:+ String c t.
Proof. by rewrite append_assoc. Qed.



Lemma sameChar_sym a c : Str.sameChar a c = Str.sameChar c a.
Proof. unfold Str.sameChar. apply Ascii.eqb_sym. Qed.


(** Only the first [length p] characters decide a match at the start. *)
Lemma matchesAt_append p s t :
  Str.matchesAt p s = true → Str.matchesAt p (s +:+ t) = true.
Proof.
  revert s. induction p as [|a p IH]; intros [|c s]; simpl; try done.
  intros [H1 H2]%andb_prop. rewrite H1. simpl. by apply IH.
Qed.

Lemma matchesAt_long p l t :
  (String.length p ≤ String.length l)%nat →
  Str.matchesAt p (l +:+ t) = Str.matchesAt p l.
Proof.
  revert l. induction p as [|a p IH]; intros [|c l]; simpl; try done; try lia.
  intros Hlen. rewrite IH; [done | lia].
Qed.

(** A match that starts [length l] characters before [s] leaves its
    tail matching at the start of [s]. *)
Lemma matchesAt_drop p l s :
  (String.length l ≤ String.length p)%nat →
  Str.matchesAt p (l +:+ s) = true →
  Str.matchesAt (Str.drop (String.length l) p) s = true.
Proof.
  revert p. induction l as [|c l IH]; intros p Hlen H; simpl.
  - by destruct p.
  - destruct p as [|a p]; simpl in *; [lia |].
    apply andb_prop in H as [_ H]. apply IH; [lia | done].
Qed.





Lemma hasMatch_cons p c s :
  Str.hasMatch p (String c s) = Str.matchesAt p (String c s) || Str.hasMatch p s.
Proof. done. Qed.


Lemma hasMatch_append_r p u t :
  Str.hasMatch p t = true → Str.hasMatch p (u +:+ t) = true.
Proof.
  intros H. induction u as [|c u IH]; simpl; [done |].
  rewrite IH. apply orb_true_r.
Qed.

Lemma hasMatch_head p s : Str.matchesAt p s = true → Str.hasMatch p s = true.
Proof. destruct s; simpl; [done |]. by intros ->. Qed.

Lemma drop_length_cons p c s :
  p ≠ "" →
  Str.drop (String.length p) (String c s) = Str.drop (String.length p - 1) s.
Proof. destruct p; [done |]. intros _. simpl. by rewrite Nat.sub_0_r. Qed.

(** Skipping is dropping. *)
Lemma replaceFrom_skip p r k s :
  Str.replaceFrom p r k s = Str.replaceFrom p r 0 (Str.drop k s).
Proof.
  revert k. induction s as [|c s IH]; intros [|k]; simpl; done.
Qed.

Lemma replaceFrom_hit p r c s :
  p ≠ "" →
  Str.matchesAt p (String c s) = true →
  Str.replaceFrom p r 0 (String c s)
  = r +:+ Str.replaceFrom p r 0 (Str.drop (String.length p) (String c s)).
Proof.
  intros Hp H. simpl Str.replaceFrom. rewrite H. rewrite replaceFrom_skip.
  destruct p as [|a p]; simpl; [done | by rewrite Nat.sub_0_r].
Qed.

Lemma replaceFrom_miss p r c s :
  Str.matchesAt p (String c s) = false →
  Str.replaceFrom p r 0 (String c s) = String c (Str.replaceFrom p r 0 s).
Proof. intros H. simpl Str.replaceFrom. by rewrite H. Qed.


End Scan.

(** ** Occurrences of a pattern that cannot overlap itself *)

Section Occurrences.

Variable p : string.
Hypothesis p_nonempty : p ≠ "".
Hypothesis p_borderFree :
  ∀ j, (0 < j < String.length p)%nat → Str.matchesAt (Str.drop j p) p = false.

Implicit Types (r s t u l m : string) (c : ascii).

#[local] Arguments String.append !_ _ / : simpl nomatch.



End Occurrences.

(** ** A replacement text that cannot take part in an occurrence *)

Section Replacement.

Variables p r : string.
Hypothesis p_nonempty : p ≠ "".
Hypothesis r_left : ∀ j t,
  (0 < j < String.length p)%nat → Str.matchesAt (Str.drop j p) (r +:+ t) = false.
Hypothesis r_right : ∀ t,
  Str.hasMatch p t = false → Str.hasMatch p (r +:+ t) = false.

(** An occurrence in the output that starts in copied text lies in the
    copied text: it is an occurrence of the input. *)
Implicit Types (s t l : string) (c : ascii).

#[local] Arguments String.append !_ _ / : simpl nomatch.

Lemma output_match_is_input_match s l :
  l ≠ "" →
  Str.matchesAt p (l +:+ Str.replaceFrom p r 0 s) = true →
  Str.matchesAt p (l +:+ s) = true.
Proof.
  revert l. induction s as [|c s IH]; intros l Hl H; [done |].
  destruct (Str.matchesAt p (String c s)) eqn:E.
  - rewrite replaceFrom_hit in H by done.
    destruct (le_lt_dec (String.length p) (String.length l)) as [Hlong | Hshort].
    + rewrite matchesAt_long in * by done. done.
    + apply matchesAt_drop in H; [| lia].
      rewrite r_left in H; [done |]. destruct l; [done | simpl in *; lia].
  - rewrite replaceFrom_miss in H by done.
    rewrite <- append_snoc in *. apply IH; [by destruct l | done].
Qed.

(** After the replacement no occurrence is left. *)
Lemma replaceFrom_no_residue k s :
  Str.hasMatch p (Str.replaceFrom p r k s) = false.
Proof.
  revert k. induction s as [|c s IH]; intros k.
  - simpl. by destruct p.
  - destruct k as [|k]; [| apply IH].
    destruct (Str.matchesAt p (String c s)) eqn:E.
    + rewrite replaceFrom_hit by done. apply r_right.
      rewrite drop_length_cons by done. rewrite <- replaceFrom_skip. apply IH.
    + rewrite replaceFrom_miss by done. rewrite hasMatch_cons, IH, orb_false_r.
      destruct (Str.matchesAt p (String c (Str.replaceFrom p r 0 s))) eqn:E'; [| done].
      apply (output_match_is_input_match s (String c "")) in E'; [| done].
      simpl in E'. congruence.
Qed.

End Replacement.

(** ** Replacing through a function *)

Section ScanWith.

Implicit Types (p s t : string) (c : ascii) (k : nat).

#[local] Arguments String.append !_ _ / : simpl nomatch.

Lemma take_drop k s : Str.take k s +:+ Str.drop k s = s.
Proof.
  revert s. induction k as [|k IH]; intros [|c s]; simpl; try done.
  by rewrite IH.
Qed.

Lemma drop_empty k : Str.drop k "" = "".
Proof. by destruct k. Qed.

(** A function that returns the matched text leaves the string as it is. *)
Lemma replaceFromWith_match p k s :
  p ≠ "" → Str.replaceFromWith p (λ matched, Returned matched) k s = Returned (Str.drop k s).
Proof.
  intros Hp. revert k. induction s as [|c s IH]; intros k.
  - by rewrite drop_empty.
  - destruct k as [|k]; [| apply IH].
    cbn [Str.replaceFromWith Str.drop].
    destruct (Str.matchesAt p (String c s)).
    + rewrite IH. destruct p as [|a p]; [done |].
      replace (String.length (String a p) - 1)%nat with (String.length p)
        by (simpl; lia).
      cbn [String.length Str.take].
      change (String c (Str.take (String.length p) s) +:+ Str.drop (String.length p) s)
        with (String c (Str.take (String.length p) s +:+ Str.drop (String.length p) s)).
      by rewrite take_drop.
    + rewrite IH. done.
Qed.

(** A function that returns one text whatever the match replaces like
    that text. *)
Lemma replaceFromWith_text p text k s :
  Str.replaceFromWith p (λ _, Returned text) k s = Returned (Str.replaceFrom p text k s).
Proof.
  revert k. induction s as [|c s IH]; intros k; [done |].
  destruct k as [|k]; [| apply IH].
  cbn [Str.replaceFromWith Str.replaceFrom].
  destruct (Str.matchesAt p (String c s)); by rewrite IH.
Qed.

(** A function that throws makes the call throw when there is an
    occurrence; without one it is not called. *)
Lemma replaceFromWith_throw p e s :
  p ≠ "" →
  Str.replaceFromWith p (λ _, Thrown e) 0 s
  = if Str.hasMatch p s then Thrown e else Returned s.
Proof.
  intros Hp. induction s as [|c s IH].
  - simpl. by destruct p.
  - cbn [Str.replaceFromWith]. rewrite hasMatch_cons.
    destruct (Str.matchesAt p (String c s)); [done |].
    rewrite IH. simpl. by destruct (Str.hasMatch p s).
Qed.

End ScanWith.

(** ** Mapping a callback that can throw *)

Lemma mapThrowing_returned {A B} (f : A → outcome B) (g : A → B) (l : list A) :
  Forall (λ a, f a = Returned (g a)) l → mapThrowing f l = Returned (g <$> l).
Proof.
  induction 1 as [|a l Ha _ IH]; simpl; [done |]. by rewrite Ha, IH.
Qed.

Lemma mapThrowing_thrown {A B} (f : A → outcome B) (e : Error) (l : list A) :
  Forall (λ a, f a = Thrown e ∨ ∃ b, f a = Returned b) l →
  Exists (λ a, f a = Thrown e) l →
  mapThrowing f l = Thrown e.
Proof.
  induction 1 as [|a l Ha Hl IH]; intros Hex; [by apply Exists_nil in Hex |].
  simpl. destruct Ha as [Ha | [b Ha]]; rewrite Ha; [done |].
  apply Exists_cons in Hex as [Hex | Hex]; [congruence |].
  by rewrite IH.
Qed.

(** ** The token and the replacement texts *)

Lemma MATTERMOST_nonempty : MATTERMOST ≠ "".
Proof. done. Qed.


Lemma brandFor_cases locale :
  Spec.brandFor locale = "Andisheh Hosseini Elementary"
  ∨ Spec.brandFor locale = "دبستان اندیشه حسینی".
Proof.
  unfold Spec.brandFor, BRAND_NAME_PER_LOCALE, PRIMARY_LOCALE.
  destruct (decide (locale = "en")) as [-> | Hen]; [by left |].
  destruct (decide (locale = "fa")) as [-> | Hfa]; [by right |].
  right. rewrite !lookup_insert_ne, lookup_empty by done. done.
Qed.

Lemma primary_brand :
  getProperty BRAND_NAME_PER_LOCALE PRIMARY_LOCALE = Own "دبستان اندیشه حسینی".
Proof. reflexivity. Qed.

(** For a locale whose name is not inherited, the replacement is the
    configured brand name, or that of the primary locale. *)
Lemma brandName_own locale :
  ObjectPrototype.has locale = false → brandName locale = Own (Spec.brandFor locale).
Proof.
  unfold ObjectPrototype.has, brandName, getProperty, Spec.brandFor,
    BRAND_NAME_PER_LOCALE, PRIMARY_LOCALE.
  destruct (decide (locale = "en")) as [-> | Hen]; [done |].
  destruct (decide (locale = "fa")) as [-> | Hfa]; [done |].
  rewrite !lookup_insert_ne, lookup_empty by done.
  by destruct (ObjectPrototype.inherited locale).
Qed.

(** The replacement texts hold no [$], so [replace] inserts them as they
    are. *)
Lemma brandFor_verbatim locale : Str.hasMatch "$" (Spec.brandFor locale) = false.
Proof. by destruct (brandFor_cases locale) as [-> | ->]. Qed.

(** What the replacement does to the occurrences, by locale: it writes
    one of five texts, or keeps the match, or throws. *)
Lemma replaceToken_cases locale :
  (∃ text,
      text ∈ [Spec.brandFor locale; "[object Undefined]"; "false"; "[object Object]"]
      ∧ (ObjectPrototype.has locale = false → text = Spec.brandFor locale)
      ∧ ∀ s, replaceToken (brandName locale) s
             = Returned (Str.replaceAll MATTERMOST text s))
  ∨ (locale = "constructor" ∧ ∀ s, replaceToken (brandName locale) s = Returned s)
  ∨ (locale ∈ ObjectPrototype.needReceiver
     ∧ ∀ s, replaceToken (brandName locale) s
            = if Str.hasMatch MATTERMOST s
              then Thrown ObjectPrototype.typeError else Returned s).
Proof.
  destruct (ObjectPrototype.has locale) eqn:Hhas.
  - assert (BRAND_NAME_PER_LOCALE !! locale = None) as Hown.
    { unfold BRAND_NAME_PER_LOCALE.
      destruct (decide (locale = "en")) as [-> | ?]; [done |].
      destruct (decide (locale = "fa")) as [-> | ?]; [done |].
      by rewrite !lookup_insert_ne, lookup_empty. }
    unfold ObjectPrototype.has in Hhas.
    assert (brandName locale
            = match ObjectPrototype.inherited locale with
              | Some m => Inherited m
              | None => Own "دبستان اندیشه حسینی"
              end) as ->.
    { unfold brandName. rewrite primary_brand. unfold getProperty. rewrite Hown.
      by destruct (ObjectPrototype.inherited locale). }
    unfold ObjectPrototype.inherited in *.
    destruct (decide (locale = "constructor")) as [Hc | _].
    { right. left. split; [done |]. intros s.
      apply (replaceFromWith_match MATTERMOST 0 s MATTERMOST_nonempty). }
    destruct (decide (locale = "toString")) as [_ | _].
    { left. exists "[object Undefined]". split; [by rewrite !elem_of_cons; auto |]. split; [done |].
      intros s. apply replaceFromWith_text. }
    destruct (decide (locale = "isPrototypeOf")) as [_ | _].
    { left. exists "false". split; [by rewrite !elem_of_cons; auto |]. split; [done |].
      intros s. apply replaceFromWith_text. }
    destruct (decide (locale = "__proto__")) as [_ | _].
    { left. exists "[object Object]". split; [by rewrite !elem_of_cons; auto |]. by split. }
    destruct (decide (locale ∈ ObjectPrototype.needReceiver)) as [Hin | _]; [| done].
    right. right. split; [done |]. intros s.
    apply (replaceFromWith_throw MATTERMOST _ s MATTERMOST_nonempty).
  - left. exists (Spec.brandFor locale). split; [by rewrite !elem_of_cons; auto |]. split; [done |].
    intros s. by rewrite brandName_own.
Qed.

Lemma text_cases locale text :
  text ∈ [Spec.brandFor locale; "[object Undefined]"; "false"; "[object Object]"] →
  text = "Andisheh Hosseini Elementary" ∨ text = "دبستان اندیشه حسینی"
  ∨ text = "[object Undefined]" ∨ text = "false" ∨ text = "[object Object]".
Proof.
  rewrite !elem_of_cons, elem_of_nil.
  intros [-> | [-> | [-> | [-> | []]]]]; auto.
  destruct (brandFor_cases locale) as [-> | ->]; auto.
Qed.

(** An occurrence cannot end inside a replacement text, nor start inside
    one. *)
Lemma text_left locale text j t :
  text ∈ [Spec.brandFor locale; "[object Undefined]"; "false"; "[object Object]"] →
  (0 < j < String.length MATTERMOST)%nat →
  Str.matchesAt (Str.drop j MATTERMOST) (text +:+ t) = false.
Proof.
  intros Htext [Hpos Hlt]. simpl in Hlt.
  pose proof (text_cases locale text Htext) as Hcases.
  destruct Hcases as [-> | [-> | [-> | [-> | ->]]]];
    do 10 (destruct j as [|j]; [first [lia | reflexivity] |]); lia.
Qed.

Lemma text_right locale text t :
  text ∈ [Spec.brandFor locale; "[object Undefined]"; "false"; "[object Object]"] →
  Str.hasMatch MATTERMOST t = false →
  Str.hasMatch MATTERMOST (text +:+ t) = false.
Proof.
  intros Htext H.
  pose proof (text_cases locale text Htext) as Hcases.
  destruct Hcases as [-> | [-> | [-> | [-> | ->]]]]; exact H.
Qed.

Lemma replaceAll_tokenFree locale text s :
  text ∈ [Spec.brandFor locale; "[object Undefined]"; "false"; "[object Object]"] →
  Str.hasMatch MATTERMOST (Str.replaceAll MATTERMOST text s) = false.
Proof.
  intros Htext.
  apply (replaceFrom_no_residue MATTERMOST text MATTERMOST_nonempty).
  - intros j t. by apply (text_left locale).
  - intros t. by apply (text_right locale).
Qed.
(** ** Texts cut at the occurrences of the token *)


Lemma cutAtToken_cons u0 m u rest :
  Spec.cutAtToken u0 ((m, u) :: rest) = true ↔
  Str.hasMatch MATTERMOST u0 = false
  ∧ String.length m = String.length MATTERMOST
  ∧ Str.matchesAt MATTERMOST m = true
  ∧ Spec.cutAtToken u rest = true.
Proof.
  unfold Spec.cutAtToken, Spec.isCasing. simpl.
  rewrite !andb_true_iff, !negb_true_iff, Nat.eqb_eq. tauto.
Qed.


Lemma hasMatch_assemble u0 part rest :
  Spec.cutAtToken u0 (part :: rest) = true →
  Str.hasMatch MATTERMOST (Spec.assemble u0 (part :: rest)) = true.
Proof.
  destruct part as [m u]. intros (_ & _ & Hm & _)%cutAtToken_cons. simpl.
  apply hasMatch_append_r, hasMatch_head. by apply matchesAt_append.
Qed.



(** ** Locale resolution *)

Lemma languages_lookup key :
  languages !! key
  = if decide (key = "en") then Some "en"
    else if decide (key = "fa") then Some "fa" else None.
Proof.
  unfold languages, keyMirror. rewrite map_lookup_imap.
  repeat case_decide; subst; simplify_map_eq; done.
Qed.

Lemma split_nonempty sep s : Str.split sep s ≠ [].
Proof.
  destruct s as [|c s]; simpl; [done |].
  destruct (Ascii.eqb c sep); [done |]. by destruct (Str.split sep s).
Qed.

(** The first piece of the split is the text before the first separator. *)
Lemma firstPiece_bareCode tag : Str.firstPiece "-" tag = Spec.bareCode tag.
Proof.
  unfold Str.firstPiece. induction tag as [|c tag IH]; simpl; [done |].
  destruct (Ascii.eqb c "-"); [done |].
  pose proof (split_nonempty "-" tag) as Hne.
  destruct (Str.split "-" tag) as [|piece pieces]; [done |]. by rewrite IH.
Qed.

Lemma getLocaleFromLanguage_cases tag :
  getLocaleFromLanguage tag = "en" ∨ getLocaleFromLanguage tag = "fa".
Proof.
  unfold getLocaleFromLanguage. rewrite !languages_lookup.
  repeat case_decide; simpl; auto.
Qed.

Lemma getLocaleFromLanguage_fixed tag :
  getLocaleFromLanguage (getLocaleFromLanguage tag) = getLocaleFromLanguage tag.
Proof. by destruct (getLocaleFromLanguage_cases tag) as [-> | ->]. Qed.

Lemma getLocaleFromLanguage_canonical tag :
  getLocaleFromLanguage tag ∈ Spec.canonicalLocales.
Proof.
  unfold Spec.canonicalLocales.
  destruct (getLocaleFromLanguage_cases tag) as [-> | ->]; set_solver.
Qed.

(** C1. [getLocaleFromLanguage] is the resolution algorithm: the full tag
    is looked up in the registry, then the bare language code, and the
    primary locale is the answer when both are absent.  The result is a
    canonical locale, and every canonical locale resolves to itself. *)
Theorem getLocaleFromLanguage_resolves (tag : string) :
  getLocaleFromLanguage tag = Spec.resolve tag
  ∧ getLocaleFromLanguage tag ∈ Spec.canonicalLocales
  ∧ Forall (λ locale, getLocaleFromLanguage locale = locale) Spec.canonicalLocales.
Proof.
  split; [| split].
  - unfold getLocaleFromLanguage, Spec.resolve.
    rewrite firstPiece_bareCode, !languages_lookup.
    repeat case_decide; done.
  - apply getLocaleFromLanguage_canonical.
  - unfold Spec.canonicalLocales. by repeat constructor.
Qed.

(** ** [applyBranding] entry by entry *)



Lemma brandedValue_tokenFree locale text value :
  text ∈ [Spec.brandFor locale; "[object Undefined]"; "false"; "[object Object]"] →
  Spec.tokenFree (Spec.brandedValue text value).
Proof.
  intros Htext. destruct value as [s | | | | | |]; try done. simpl.
  destruct (Str.hasMatch MATTERMOST s) eqn:E; [| done].
  by apply (replaceAll_tokenFree locale).
Qed.

Lemma brandedValue_fixed text value :
  Spec.tokenFree value → Spec.brandedValue text value = value.
Proof. destruct value as [s | | | | | |]; try done. simpl. by intros ->. Qed.

Lemma branded_lookup locale catalog key :
  Spec.branded locale catalog !! key
  = Spec.brandedValue (Spec.brandFor locale) <$> catalog !! key.
Proof. unfold Spec.branded. by rewrite lookup_fmap. Qed.

Lemma branded_tokenFree locale catalog :
  map_Forall (λ _ value, Spec.tokenFree value) (Spec.branded locale catalog).
Proof.
  intros key value. rewrite branded_lookup.
  destruct (catalog !! key) as [v|]; simpl; [| done].
  intros [= <-]. apply (brandedValue_tokenFree locale). rewrite !elem_of_cons. auto.
Qed.

(** A replacement that writes a text. *)
Lemma applyBranding_writes translations locale text :
  (∀ s, replaceToken (brandName locale) s
        = Returned (Str.replaceAll MATTERMOST text s)) →
  applyBranding translations locale = Returned (Spec.brandedValue text <$> translations).
Proof.
  intros Hbrand. unfold applyBranding.
  rewrite (mapThrowing_returned _ (prod_map id (Spec.brandedValue text))).
  - cbn [fmap outcome_fmap]. by rewrite list_to_map_fmap, list_to_map_to_list.
  - apply Forall_forall. intros [key value] _.
    destruct value as [s | | | | | |]; try done. simpl.
    destruct (Str.hasMatch MATTERMOST s); [| done]. by rewrite Hbrand.
Qed.

(** A replacement that puts the match back. *)
Lemma applyBranding_keeps translations locale :
  (∀ s, replaceToken (brandName locale) s = Returned s) →
  applyBranding translations locale = Returned translations.
Proof.
  intros Hbrand. unfold applyBranding. rewrite (mapThrowing_returned _ id).
  - cbn [fmap outcome_fmap]. by rewrite list_fmap_id, list_to_map_to_list.
  - apply Forall_forall. intros [key value] _.
    destruct value as [s | | | | | |]; try done. simpl.
    destruct (Str.hasMatch MATTERMOST s); [| done]. by rewrite Hbrand.
Qed.

(** A replacement that throws at an occurrence. *)
Lemma applyBranding_guarded translations locale e :
  (∀ s, replaceToken (brandName locale) s
        = if Str.hasMatch MATTERMOST s then Thrown e else Returned s) →
  (applyBranding translations locale = Thrown e ∧ Spec.holdsToken translations)
  ∨ (applyBranding translations locale = Returned translations
     ∧ map_Forall (λ _ value, Spec.tokenFree value) translations).
Proof.
  intros Hbrand. unfold applyBranding.
  assert (∀ entry : string * jsval,
            {brandEntry (brandName locale) entry = Returned entry
             ∧ Spec.tokenFree entry.2}
            + {brandEntry (brandName locale) entry = Thrown e
               ∧ ∃ s, entry.2 = JString s ∧ Str.hasMatch MATTERMOST s = true})
    as Hdec.
  { intros [key value]. destruct value as [s | | | | | |]; try (by left).
    simpl. destruct (Str.hasMatch MATTERMOST s) eqn:E; [right | by left].
    rewrite Hbrand, E. split; [done | by exists s]. }
  destruct (Forall_Exists_dec _ _ Hdec (map_to_list translations)) as [Hall | Hex].
  - right. rewrite (mapThrowing_returned _ id).
    + cbn [fmap outcome_fmap]. rewrite list_fmap_id, list_to_map_to_list.
      split; [done |]. intros key value Hkey.
      rewrite Forall_forall in Hall.
      apply (Hall (key, value)). by apply elem_of_map_to_list.
    + eapply Forall_impl; [exact Hall |]. by intros entry [? _].
  - left. split.
    + rewrite (mapThrowing_thrown _ e); [done | |].
      * apply Forall_forall. intros entry _.
        destruct (Hdec entry) as [[H _] | [H _]]; [right; by eexists | by left].
      * eapply Exists_impl; [exact Hex |]. by intros entry [? _].
    + apply Exists_exists in Hex as ([key value] & Hin & _ & s & Hs & Hm).
      simpl in Hs. subst value. exists key, s.
      split; [by apply elem_of_map_to_list | done].
Qed.

(** For a locale whose name is not inherited the result is the catalog
    under the brand name. *)
Lemma applyBranding_own translations locale :
  ObjectPrototype.has locale = false →
  applyBranding translations locale = Returned (Spec.branded locale translations).
Proof.
  intros Hown. apply applyBranding_writes. intros s. by rewrite brandName_own.
Qed.

(** A catalog without the token comes back as it is, whatever the
    locale. *)
Lemma applyBranding_of_tokenFree translations locale :
  map_Forall (λ _ value, Spec.tokenFree value) translations →
  applyBranding translations locale = Returned translations.
Proof.
  intros Hfree.
  destruct (replaceToken_cases locale)
    as [(text & _ & _ & Hbrand) | [[_ Hbrand] | [_ Hbrand]]].
  - rewrite (applyBranding_writes _ _ text Hbrand). f_equal.
    apply map_eq. intros key. rewrite lookup_fmap.
    destruct (translations !! key) as [v|] eqn:Hkey; simpl; [| done].
    f_equal. apply brandedValue_fixed. by apply (Hfree key).
  - by apply applyBranding_keeps.
  - destruct (applyBranding_guarded translations locale _ Hbrand)
      as [[_ (key & s & Hkey & Hs)] | [Hrun _]]; [| done].
    apply Hfree in Hkey. simpl in Hkey. congruence.
Qed.

(** Unless the locale is [constructor], a catalog that comes back holds
    no token. *)
Lemma applyBranding_tokenFree translations locale output :
  locale ≠ "constructor" →
  applyBranding translations locale = Returned output →
  map_Forall (λ _ value, Spec.tokenFree value) output.
Proof.
  intros Hlocale Hrun.
  destruct (replaceToken_cases locale)
    as [(text & Htext & _ & Hbrand) | [[? _] | [_ Hbrand]]]; [| done |].
  - rewrite (applyBranding_writes _ _ text Hbrand) in Hrun. injection Hrun as <-.
    intros key value. rewrite lookup_fmap.
    destruct (translations !! key) as [v|]; simpl; [| done].
    intros [= <-]. by apply (brandedValue_tokenFree locale).
  - destruct (applyBranding_guarded translations locale _ Hbrand)
      as [[Hthrow _] | [Hsame Hfree]]; [congruence |].
    rewrite Hsame in Hrun. by injection Hrun as <-.
Qed.



Lemma has_canonical tag : ObjectPrototype.has (getLocaleFromLanguage tag) = false.
Proof. by destruct (getLocaleFromLanguage_cases tag) as [-> | ->]. Qed.

(** ** The claims about [applyBranding] *)









(** C10. Resolving twice is resolving once; so the catalog that
    [getLocalizedMessage] reads, obtained by passing the resolved locale
    to [getTranslations], is the one [getTranslations] returns for the
    original tag, with the same effects. *)
Theorem getLocaleFromLanguage_idempotent
  (en fa : gmap string jsval) (tag id : string) (defaultMessage : option string)
  (w : World) :
  getLocaleFromLanguage (getLocaleFromLanguage tag) = getLocaleFromLanguage tag
  ∧ getTranslations en fa (getLocaleFromLanguage tag) w = getTranslations en fa tag w
  ∧ getLocalizedMessage en fa tag id defaultMessage w
    = (translations ← getTranslations en fa tag;
       mret (match translations !! id with
             | Some v => if truthy v then v else JString (orString defaultMessage "")
             | None =>
                 if ObjectPrototype.has id then JInherited id
                 else JString (orString defaultMessage "")
             end)) w.
Proof.
  split; [apply getLocaleFromLanguage_fixed |].
  unfold getLocalizedMessage, getTranslations.
  by rewrite getLocaleFromLanguage_fixed.
Qed.

(** ** Loading *)

Lemma loadable_prefix broken modules :
  Spec.loadable broken modules `prefix_of` modules.
Proof.
  induction modules as [|m rest IH]; simpl; [done |].
  destruct (broken !! m); [apply prefix_nil | by apply prefix_cons].
Qed.

Lemma loadable_sound broken modules :
  Forall (λ m, broken !! m = None) (Spec.loadable broken modules).
Proof.
  induction modules as [|m rest IH]; simpl; [done |].
  destruct (broken !! m) eqn:E; [done | by constructor].
Qed.

Lemma loadable_all broken modules :
  Spec.loadFailure broken modules = None → Spec.loadable broken modules = modules.
Proof.
  induction modules as [|m rest IH]; simpl; [done |].
  destruct (broken !! m); [done |]. intros H. by rewrite IH.
Qed.

(** [requireAll]: the modules before the first broken one are registered,
    the last one first, and nothing else changes; it throws what the
    first broken module throws. *)
Lemma requireAll_run modules w :
  requireAll modules w
  = (match Spec.loadFailure (broken w) modules with
     | Some e => Thrown e
     | None => Returned tt
     end,
     mkWorld (broken w) (rev (Spec.loadable (broken w) modules) ++ registered w)%list
       (logged w) (momentLocale w)).
Proof.
  revert w. induction modules as [|m rest IH]; intros w; simpl.
  - by destruct w.
  - unfold mbind, M_bind, require.
    destruct (broken w !! m) as [e|] eqn:E; simpl; [by destruct w |].
    rewrite IH. simpl. by rewrite <- app_assoc.
Qed.

Section Loading.

Variables en fa : gmap string jsval.

(** When a required module throws, [loadTranslation] logs and recovers. *)
Lemma loadTranslation_fails (locale : option string) w e :
  Spec.loadFailure (broken w)
    (localeData (if decide (locale = Some "fa") then "fa" else "en")) = Some e →
  loadTranslation en fa locale w
  = (Returned (Spec.branded PRIMARY_LOCALE en),
     mkWorld (broken w)
       (rev (Spec.loadable (broken w)
               (localeData (if decide (locale = Some "fa") then "fa" else "en")))
        ++ registered w)%list
       (("NO Translation found", e) :: logged w) (momentLocale w)).
Proof.
  intros Hfail.
  unfold loadTranslation, tryCatch, mbind, M_bind, mret, M_ret, logError, fromOutcome.
  destruct (decide (locale = Some "fa")) as [Hfa | Hfa];
    rewrite requireAll_run, Hfail; simpl;
    by rewrite (applyBranding_own en PRIMARY_LOCALE eq_refl).
Qed.

(** When every required module loads and the locale is not the name of an
    inherited property, [loadTranslation] returns the catalog of the
    locale under its brand name and logs nothing. *)
Lemma loadTranslation_loads (locale : option string) w :
  Spec.loadFailure (broken w)
    (localeData (if decide (locale = Some "fa") then "fa" else "en")) = None →
  ObjectPrototype.has (orString locale PRIMARY_LOCALE) = false →
  loadTranslation en fa locale w
  = (Returned (Spec.branded (orString locale PRIMARY_LOCALE)
                 (if decide (locale = Some "fa") then fa else en)),
     mkWorld (broken w)
       (rev (Spec.loadable (broken w)
               (localeData (if decide (locale = Some "fa") then "fa" else "en")))
        ++ registered w)%list
       (logged w) (momentLocale w)).
Proof.
  intros Hload Hown.
  unfold loadTranslation, tryCatch, mbind, M_bind, mret, M_ret, logError, fromOutcome.
  destruct (decide (locale = Some "fa")) as [Hfa | Hfa];
    rewrite requireAll_run, Hload; simpl;
    by rewrite (applyBranding_own _ _ Hown).
Qed.

Lemma getTranslations_run lang w :
  getTranslations en fa lang w
  = (Returned (Spec.served en fa (broken w) lang),
     mkWorld (broken w)
       (rev (Spec.loadable (broken w) (localeData (getLocaleFromLanguage lang)))
        ++ registered w)%list
       match Spec.loadFailure (broken w) (localeData (getLocaleFromLanguage lang)) with
       | Some e => ("NO Translation found", e) :: logged w
       | None => logged w
       end
       (momentLocale w)).
Proof.
  unfold getTranslations, Spec.served, Spec.catalogOf.
  assert ((if decide (Some (getLocaleFromLanguage lang) = Some "fa") then "fa" else "en")
          = getLocaleFromLanguage lang) as Hloc.
  { destruct (getLocaleFromLanguage_cases lang) as [-> | ->]; done. }
  destruct (Spec.loadFailure (broken w) (localeData (getLocaleFromLanguage lang)))
    as [e|] eqn:Hload.
  - rewrite (loadTranslation_fails _ w e) by (by rewrite Hloc). by rewrite Hloc.
  - rewrite (loadTranslation_loads _ w); [| by rewrite Hloc |].
    + rewrite Hloc. do 2 f_equal.
      destruct (getLocaleFromLanguage_cases lang) as [-> | ->]; done.
    + destruct (getLocaleFromLanguage_cases lang) as [-> | ->]; done.
Qed.

End Loading.

Lemma served_branded en fa broken lang :
  match Spec.loadFailure broken (localeData (getLocaleFromLanguage lang)) with
  | Some e => applyBranding en PRIMARY_LOCALE = Returned (Spec.served en fa broken lang)
  | None =>
      applyBranding (Spec.catalogOf en fa (getLocaleFromLanguage lang))
        (getLocaleFromLanguage lang)
      = Returned (Spec.served en fa broken lang)
  end.
Proof.
  unfold Spec.served. destruct (Spec.loadFailure _ _).
  - by apply applyBranding_own.
  - apply applyBranding_own, has_canonical.
Qed.

Lemma served_tokenFree en fa broken lang :
  map_Forall (λ _ value, Spec.tokenFree value) (Spec.served en fa broken lang).
Proof. unfold Spec.served. destruct (Spec.loadFailure _ _); apply branded_tokenFree. Qed.

(** C2, as the code has it.  [getTranslations] returns for every tag and
    never throws.  When a module of formatting data required for the
    resolved locale throws, the failure is logged once and the result is
    the English catalog [en] under the brand name of the primary locale;
    otherwise nothing is logged and the result is the catalog of the
    resolved locale under its own brand name. *)
Theorem getTranslations_never_raises
  (en fa : gmap string jsval) (lang : string) (w : World) :
  ∃ catalog w',
    getTranslations en fa lang w = (Returned catalog, w')
    ∧ match Spec.loadFailure (broken w) (localeData (getLocaleFromLanguage lang)) with
      | Some e =>
          applyBranding en PRIMARY_LOCALE = Returned catalog
          ∧ logged w' = ("NO Translation found", e) :: logged w
      | None =>
          applyBranding (Spec.catalogOf en fa (getLocaleFromLanguage lang))
            (getLocaleFromLanguage lang)
          = Returned catalog
          ∧ logged w' = logged w
      end.
Proof.
  eexists _, _. split; [apply getTranslations_run |].
  pose proof (served_branded en fa (broken w) lang) as Hserved.
  by destruct (Spec.loadFailure _ _).
Qed.

(** C2 as stated fails: with the list-format data of [fa] broken,
    [getTranslations "fa"] returns the English catalog, not the catalog of
    the primary locale [fa]. *)
Lemma getTranslations_recovers_to_en :
  (getTranslations Demo.en Demo.fa "fa" (Demo.failing "fa")).1
  = applyBranding Demo.en PRIMARY_LOCALE
  ∧ (λ catalog, catalog !! "about.title") <$> applyBranding Demo.en PRIMARY_LOCALE
    = Returned (Some (JString "About دبستان اندیشه حسینی"))
  ∧ (λ catalog, catalog !! "about.title") <$> applyBranding Demo.fa PRIMARY_LOCALE
    = Returned (Some (JString "درباره دبستان اندیشه حسینی"))
  ∧ applyBranding Demo.en PRIMARY_LOCALE ≠ applyBranding Demo.fa PRIMARY_LOCALE.
Proof.
  repeat split; try (vm_compute; reflexivity).
  intros H. apply (f_equal (fmap (λ m : gmap string jsval, m !! "about.title"))) in H.
  vm_compute in H. discriminate H.
Qed.

(** C4, as the code has it.  When a required module throws,
    [loadTranslation] returns the English catalog branded for the primary
    locale, whichever locale was requested: a string of [en] that holds
    the token comes back with the brand name of the primary locale in
    place of every occurrence. *)
Theorem recovery_brands_for_primary_locale
  (en fa : gmap string jsval) (locale : option string) (w : World) (e : Error) :
  Spec.loadFailure (broken w)
    (localeData (if decide (locale = Some "fa") then "fa" else "en")) = Some e →
  ∃ catalog w',
    applyBranding en PRIMARY_LOCALE = Returned catalog
    ∧ loadTranslation en fa locale w = (Returned catalog, w')
    ∧ ∀ key s,
        en !! key = Some (JString s) → Str.hasMatch MATTERMOST s = true →
        catalog !! key
        = Some (JString (Str.replaceAll MATTERMOST (Spec.brandFor PRIMARY_LOCALE) s)).
Proof.
  intros Hfail. eexists _, _.
  split; [by apply applyBranding_own |].
  split; [by apply loadTranslation_fails |].
  intros key s Hkey Hs. rewrite branded_lookup, Hkey. simpl. by rewrite Hs.
Qed.

Lemma recovery_brands_for_primary_locale_witness :
  ∃ catalog w',
    loadTranslation Demo.en Demo.fa (Some "en") (Demo.failing "en")
    = (Returned catalog, w')
    ∧ catalog !! "about.title"
      = Some (JString (Str.replaceAll MATTERMOST (Spec.brandFor PRIMARY_LOCALE)
                         "About Mattermost")).
Proof.
  destruct (recovery_brands_for_primary_locale Demo.en Demo.fa (Some "en")
              (Demo.failing "en") "Cannot find module")
    as (catalog & w' & _ & Hrun & Hbrand).
  - vm_compute. reflexivity.
  - exists catalog, w'. split; [exact Hrun |].
    apply Hbrand; vm_compute; reflexivity.
Defined.

(** C4 as stated fails: [en] is requested, its list-format data is
    broken, and the catalog that comes back carries the brand name of
    [fa], not the one of the requested locale. *)
Lemma recovery_ignores_requested_locale :
  (getTranslations Demo.en Demo.fa "en" (Demo.failing "en")).1
  = applyBranding Demo.en "fa"
  ∧ (λ catalog, catalog !! "about.title") <$> applyBranding Demo.en "fa"
    = Returned (Some (JString "About دبستان اندیشه حسینی"))
  ∧ (λ catalog, catalog !! "about.title") <$> applyBranding Demo.en "en"
    = Returned (Some (JString "About Andisheh Hosseini Elementary")).
Proof. repeat split; vm_compute; reflexivity. Qed.

(** ** Messages *)

Lemma orString_empty defaultMessage :
  JString (orString defaultMessage "") = Spec.defaultOrEmpty defaultMessage.
Proof.
  destruct defaultMessage as [text|]; simpl; [| done].
  destruct (String.eqb_spec text ""); by subst.
Qed.

Lemma getLocalizedMessage_run
  (en fa : gmap string jsval) (lang id : string) (defaultMessage : option string)
  (w : World) catalog w' :
  getTranslations en fa lang w = (Returned catalog, w') →
  getLocalizedMessage en fa lang id defaultMessage w
  = (Returned (match catalog !! id with
               | Some v => if truthy v then v else Spec.defaultOrEmpty defaultMessage
               | None =>
                   if ObjectPrototype.has id then JInherited id
                   else Spec.defaultOrEmpty defaultMessage
               end), w').
Proof.
  intros Hrun. unfold getLocalizedMessage, getTranslations in *.
  rewrite getLocaleFromLanguage_fixed.
  unfold mbind, M_bind, mret, M_ret. rewrite Hrun, orString_empty. done.
Qed.







(** ** The locale of the date library *)

Lemma bareCode_canonical tag :
  Spec.bareCode (getLocaleFromLanguage tag) = getLocaleFromLanguage tag.
Proof. by destruct (getLocaleFromLanguage_cases tag) as [-> | ->]. Qed.

Lemma bareCode_resolved tag :
  is_Some (languages !! Spec.bareCode tag) →
  Spec.bareCode tag ≠ ""
  ∧ Spec.bareCode tag = Spec.bareCode (getLocaleFromLanguage tag).
Proof.
  intros [l Hl]. rewrite bareCode_canonical.
  unfold getLocaleFromLanguage. rewrite firstPiece_bareCode.
  rewrite !languages_lookup in *.
  repeat case_decide; simplify_eq; try done;
    match goal with H : Spec.bareCode _ = _ |- _ => by rewrite H end.
Qed.

(** C8, as the code has it.  [resetMomentLocale] calls the setter of the
    date library with a key that is the bare language code of the tag it
    is given, as it is and without resolving the tag; when no tag is
    given, or the bare code of the tag is empty, the key is the bare code
    of the default locale, which is a canonical locale.  The key is never
    empty.  The process-wide locale becomes the locale the library finds
    for the key, and stays as it was when the library finds none;
    nothing else changes.  For a tag whose bare code is a registered
    language the key is the bare code of the resolved locale. *)
Theorem resetMomentLocale_sets
  (deviceLocales : list string) (getLocale : string → option string)
  (locale : option string) (w : World) :
  ∃ key w',
    resetMomentLocale deviceLocales getLocale locale w = (Returned tt, w')
    ∧ key
      = match locale with
        | Some tag =>
            if decide (Spec.bareCode tag = "")
            then Spec.bareCode (DEFAULT_LOCALE deviceLocales)
            else Spec.bareCode tag
        | None => Spec.bareCode (DEFAULT_LOCALE deviceLocales)
        end
    ∧ key ≠ ""
    ∧ momentLocale w' = default (momentLocale w) (getLocale key)
    ∧ logged w' = logged w ∧ registered w' = registered w ∧ broken w' = broken w
    ∧ DEFAULT_LOCALE deviceLocales ∈ Spec.canonicalLocales
    ∧ (∀ tag,
         locale = Some tag → is_Some (languages !! Spec.bareCode tag) →
         key = Spec.bareCode (getLocaleFromLanguage tag)).
Proof.
  assert (orString (Str.firstPiece "-" <$> locale)
            (Str.firstPiece "-" (DEFAULT_LOCALE deviceLocales))
          = match locale with
            | Some tag =>
                if decide (Spec.bareCode tag = "")
                then Spec.bareCode (DEFAULT_LOCALE deviceLocales)
                else Spec.bareCode tag
            | None => Spec.bareCode (DEFAULT_LOCALE deviceLocales)
            end) as Hkey.
  { rewrite !firstPiece_bareCode.
    destruct locale as [tag|]; simpl; [| done]. rewrite firstPiece_bareCode.
    case_decide as Hcode; [by rewrite Hcode |].
    destruct (String.eqb_spec (Spec.bareCode tag) ""); done. }
  assert (Spec.bareCode (DEFAULT_LOCALE deviceLocales) ≠ "") as Hdefault.
  { unfold DEFAULT_LOCALE. rewrite bareCode_canonical.
    by destruct (getLocaleFromLanguage_cases (deviceLocale deviceLocales)) as [-> | ->]. }
  eexists _, _. split; [reflexivity |].
  unfold resetMomentLocale, moment_locale. cbn [snd]. rewrite Hkey.
  split; [reflexivity |].
  match goal with |- ?key ≠ "" ∧ _ => assert (key ≠ "") as Hne end.
  { destruct locale as [tag|]; [| done]. by case_decide. }
  split; [exact Hne |].
  apply String.eqb_neq in Hne. rewrite Hne.
  split; [by destruct (getLocale _) |].
  split; [by destruct (getLocale _) |].
  split; [by destruct (getLocale _) |].
  split; [by destruct (getLocale _) |].
  split; [apply getLocaleFromLanguage_canonical |].
  intros tag -> Hregistered.
  destruct (bareCode_resolved tag Hregistered) as [Hcode Hresolved].
  by rewrite decide_False.
Qed.

(** C8 as stated fails: for the tag [de-DE] the date library is handed
    [de], the bare code of the tag, and its locale becomes [de], while
    the resolved canonical locale is [fa]. *)
Lemma resetMomentLocale_does_not_resolve :
  momentLocale (resetMomentLocale ["fa-IR"] Demo.getLocale (Some "de-DE") Demo.healthy).2
  = "de"
  ∧ Spec.bareCode (getLocaleFromLanguage "de-DE") = "fa".
Proof. split; vm_compute; reflexivity. Qed.

(** * Further properties of the i18n module *)

(** ** Resolution *)

(** X1. The bare language code alone decides the resolved locale: it is
    [en] when the text of the tag before its first [-] is exactly [en],
    and the primary locale [fa] for every other tag; no casing or other
    normalisation is applied. *)
Theorem getLocaleFromLanguage_by_bareCode (tag : string) :
  getLocaleFromLanguage tag = if decide (Spec.bareCode tag = "en") then "en" else "fa".
Proof.
  unfold getLocaleFromLanguage. rewrite firstPiece_bareCode, !languages_lookup.
  destruct (decide (tag = "en")) as [-> | Hen]; [done |].
  destruct (decide (tag = "fa")) as [-> | Hfa]; [done |].
  repeat case_decide; simplify_eq; done.
Qed.

Lemma bareCode_region code region :
  Spec.bareCode code = code → Spec.bareCode (code +:+ "-" +:+ region) = code.
Proof.
  induction code as [|c code IH]; [done |].
  change (String c code +:+ "-" +:+ region) with (String c (code +:+ "-" +:+ region)).
  simpl. destruct (Ascii.eqb c "-"); [done |]. intros [= H]. by rewrite IH.
Qed.

(** X2. A language code of the registry followed by [-] and any region
    resolves to the locale registered for the code. *)
Theorem getLocaleFromLanguage_region (code region locale : string) :
  languages !! code = Some locale →
  getLocaleFromLanguage (code +:+ "-" +:+ region) = locale.
Proof.
  rewrite languages_lookup. intros Hcode.
  assert (Spec.bareCode code = code ∧ locale = code) as [Hbare ->].
  { repeat case_decide; simplify_eq; done. }
  unfold getLocaleFromLanguage.
  rewrite firstPiece_bareCode, bareCode_region, !languages_lookup by done.
  repeat case_decide; simplify_eq; done.
Qed.

Lemma getLocaleFromLanguage_region_witness :
  getLocaleFromLanguage ("fa" +:+ "-" +:+ "IR") = "fa".
Proof. apply getLocaleFromLanguage_region. vm_compute. reflexivity. Defined.

(** The default locale comes from the first language tag the device
    reports and from no later one; without a reported tag it is the
    primary locale. *)
Theorem DEFAULT_LOCALE_first_tag (deviceLocales : list string) :
  DEFAULT_LOCALE deviceLocales
  = match deviceLocales with
    | tag :: _ => getLocaleFromLanguage tag
    | [] => PRIMARY_LOCALE
    end.
Proof.
  unfold DEFAULT_LOCALE, deviceLocale.
  destruct deviceLocales as [|tag rest]; simpl; [done |].
  destruct (String.eqb_spec tag ""); by subst.
Qed.

(** ** Branding *)

(** X3. A catalog that a pass of [applyBranding] returns, for a locale
    other than [constructor], is unchanged by a pass for any locale
    afterwards; and when the first pass throws there is no second. *)
Theorem applyBranding_absorbs
  (catalog : gmap string jsval) (first second : string) :
  first ≠ "constructor" →
  applyBranding catalog first ≫= (λ once, applyBranding once second)
  = applyBranding catalog first.
Proof.
  intros Hfirst.
  destruct (applyBranding catalog first) as [once | e] eqn:Hrun; [| done].
  simpl. apply applyBranding_of_tokenFree.
  by apply (applyBranding_tokenFree catalog first).
Qed.

Lemma applyBranding_absorbs_witness :
  applyBranding Demo.en "en" ≫= (λ once, applyBranding once "fa")
  = applyBranding Demo.en "en".
Proof. apply (applyBranding_absorbs Demo.en "en" "fa"). discriminate. Defined.

(** X4. A catalog in which no string value holds the token is returned
    unchanged by [applyBranding], for every locale; and, unless the
    locale is [constructor], these are the only catalogs it returns
    unchanged. *)
Theorem applyBranding_fixed_points (catalog : gmap string jsval) (locale : string) :
  (map_Forall (λ _ value, Spec.tokenFree value) catalog →
   applyBranding catalog locale = Returned catalog)
  ∧ (locale ≠ "constructor" →
     applyBranding catalog locale = Returned catalog →
     map_Forall (λ _ value, Spec.tokenFree value) catalog).
Proof.
  split.
  - apply applyBranding_of_tokenFree.
  - apply applyBranding_tokenFree.
Qed.

(** X5. Whatever the tag and whether loading succeeds or fails, no string
    value of the catalog that [getTranslations] returns holds the token. *)
Theorem getTranslations_tokenFree
  (en fa : gmap string jsval) (lang : string) (w : World) :
  ∃ catalog w',
    getTranslations en fa lang w = (Returned catalog, w')
    ∧ map_Forall (λ _ value, Spec.tokenFree value) catalog.
Proof.
  eexists _, _. split; [apply getTranslations_run |]. apply served_tokenFree.
Qed.

(** X6. A message that [getLocalizedMessage] takes from the catalog is
    branded: the result is the caller's default (or the empty string),
    which is returned as given; or a truthy value of the catalog of
    [getTranslations] that holds no occurrence of the token; or, for a
    key the catalog does not have and that is the name of a property
    every object inherits, that property. *)
Theorem getLocalizedMessage_branded
  (en fa : gmap string jsval) (lang id : string) (defaultMessage : option string)
  (w : World) :
  ∃ catalog message w',
    getTranslations en fa lang w = (Returned catalog, w')
    ∧ getLocalizedMessage en fa lang id defaultMessage w = (Returned message, w')
    ∧ (message = Spec.defaultOrEmpty defaultMessage
       ∨ (catalog !! id = Some message ∧ truthy message = true
          ∧ Spec.tokenFree message)
       ∨ (catalog !! id = None ∧ ObjectPrototype.has id = true
          ∧ message = JInherited id)).
Proof.
  eexists _, _, _. split; [apply getTranslations_run |].
  split; [apply getLocalizedMessage_run, getTranslations_run |].
  pose proof (served_tokenFree en fa (broken w) lang) as Hfree.
  destruct (Spec.served en fa (broken w) lang !! id) as [v|] eqn:Hid.
  - destruct (truthy v) eqn:Hv; [right; left | by left].
    repeat split; [done |]. by apply (Hfree id).
  - destruct (ObjectPrototype.has id); [right; right | by left]. done.
Qed.

(** ** Loading and its effects *)

(** X7. [getTranslations] requires formatting data of the resolved locale
    only: the modules it registers are an initial part of that locale's
    five modules, in the order of the source, all of them when none
    throws and none that is broken; it leaves the set of broken modules
    and the locale of the date library as they were. *)
Theorem getTranslations_registers
  (en fa : gmap string jsval) (lang : string) (w : World) :
  ∃ catalog w' loaded,
    getTranslations en fa lang w = (Returned catalog, w')
    ∧ registered w' = (rev loaded ++ registered w)%list
    ∧ loaded `prefix_of` localeData (getLocaleFromLanguage lang)
    ∧ Forall (λ m, broken w !! m = None) loaded
    ∧ (Spec.loadFailure (broken w) (localeData (getLocaleFromLanguage lang)) = None →
       loaded = localeData (getLocaleFromLanguage lang))
    ∧ broken w' = broken w
    ∧ momentLocale w' = momentLocale w.
Proof.
  eexists _, _, (Spec.loadable (broken w) (localeData (getLocaleFromLanguage lang))).
  split; [apply getTranslations_run |]. split; [done |].
  split; [apply loadable_prefix |]. split; [apply loadable_sound |].
  split; [apply loadable_all | done].
Qed.

(** X8. For a locale that the loader has no case for (anything but [fa]
    and [en], or no locale at all) and that is not the name of a property
    every object inherits, when the English formatting data loads,
    [loadTranslation] returns the English catalog under the brand name of
    the primary locale and logs nothing. *)
Theorem loadTranslation_unknown_locale
  (en fa : gmap string jsval) (locale : option string) (w : World) :
  locale ≠ Some "fa" → locale ≠ Some "en" →
  ObjectPrototype.has (orString locale PRIMARY_LOCALE) = false →
  Spec.loadFailure (broken w) (localeData "en") = None →
  ∃ catalog w',
    applyBranding en PRIMARY_LOCALE = Returned catalog
    ∧ loadTranslation en fa locale w = (Returned catalog, w')
    ∧ logged w' = logged w.
Proof.
  intros Hfa Hen Hown Hload. eexists _, _.
  split; [by apply applyBranding_own |].
  rewrite loadTranslation_loads; [| by rewrite decide_False | done].
  rewrite decide_False by done.
  assert (Spec.brandFor (orString locale PRIMARY_LOCALE) = Spec.brandFor PRIMARY_LOCALE)
    as Hbrand.
  { unfold Spec.brandFor, BRAND_NAME_PER_LOCALE, PRIMARY_LOCALE.
    destruct locale as [l|]; simpl; [| done].
    destruct (String.eqb_spec l ""); [done |].
    rewrite !lookup_insert_ne, lookup_empty by congruence. done. }
  unfold Spec.branded. rewrite Hbrand. split; [reflexivity | done].
Qed.

Lemma loadTranslation_unknown_locale_witness :
  ∃ catalog w',
    applyBranding Demo.en PRIMARY_LOCALE = Returned catalog
    ∧ loadTranslation Demo.en Demo.fa (Some "de") Demo.healthy = (Returned catalog, w')
    ∧ logged w' = logged Demo.healthy.
Proof.
  apply (loadTranslation_unknown_locale Demo.en Demo.fa (Some "de") Demo.healthy).
  - discriminate.
  - discriminate.
  - vm_compute. reflexivity.
  - vm_compute. reflexivity.
Defined.

(** * The update check *)

Lemma getLocalizedMessage_served
  (en fa : gmap string jsval) (lang id : string) (defaultMessage : option string)
  (w : World) :
  ObjectPrototype.has id = false →
  ∃ w',
    getLocalizedMessage en fa lang id defaultMessage w
    = (Returned (Spec.messageOf (Spec.served en fa (broken w) lang) id defaultMessage), w')
    ∧ broken w' = broken w
    ∧ logged w'
      = match Spec.loadFailure (broken w) (localeData (getLocaleFromLanguage lang)) with
        | Some e => ("NO Translation found", e) :: logged w
        | None => logged w
        end.
Proof.
  intros Hid. eexists.
  rewrite (getLocalizedMessage_run _ _ lang id defaultMessage w _ _
             (getTranslations_run _ _ lang w)).
  unfold Spec.messageOf. rewrite Hid. by split.
Qed.

Section UpdateFacts.

Import Update.

Variables en fa : gmap string jsval.
Variable deviceLocales : list string.
Variable coerce : option string → option SemVer.t.
Variable nativeApplicationVersion : option string.

Lemma localized_run id defaultMessage s :
  ObjectPrototype.has id = false →
  ∃ w',
    localized en fa deviceLocales id defaultMessage s
    = (Returned
         (Spec.messageOf
            (Spec.served en fa (broken (i18n s)) (DEFAULT_LOCALE deviceLocales))
            id (Some defaultMessage)),
       mkApp w' (alerts s))
    ∧ broken w' = broken (i18n s)
    ∧ logged w'
      = match Spec.loadFailure (broken (i18n s))
                (localeData (getLocaleFromLanguage (DEFAULT_LOCALE deviceLocales))) with
        | Some e => ("NO Translation found", e) :: logged (i18n s)
        | None => logged (i18n s)
        end.
Proof.
  intros Hid. unfold localized, lift.
  destruct (getLocalizedMessage_served en fa (DEFAULT_LOCALE deviceLocales) id
              (Some defaultMessage) (i18n s) Hid) as (w' & -> & Hb & Hl).
  by exists w'.
Qed.

(** X9. When the request fails or the body cannot be read, the failure
    is logged once under [Failed to check for updates] and no alert is
    shown; a response that is not [ok] is ignored without a trace. *)
Theorem checkForUpdates_failure (fetched : Error + Response) (s : App) :
  match fetched with
  | inl e =>
      checkForUpdates en fa deviceLocales coerce nativeApplicationVersion fetched s
      = mkApp (mkWorld (broken (i18n s)) (registered (i18n s))
                 (("Failed to check for updates", e) :: logged (i18n s))
                 (momentLocale (i18n s)))
          (alerts s)
  | inr response =>
      if ok response
      then match json response with
           | inl e =>
               checkForUpdates en fa deviceLocales coerce nativeApplicationVersion
                 fetched s
               = mkApp (mkWorld (broken (i18n s)) (registered (i18n s))
                          (("Failed to check for updates", e) :: logged (i18n s))
                          (momentLocale (i18n s)))
                   (alerts s)
           | inr _ => True
           end
      else checkForUpdates en fa deviceLocales coerce nativeApplicationVersion fetched s
           = s
  end.
Proof.
  unfold checkForUpdates, attempt.
  destruct fetched as [e | [[] [e | manifest]]]; simpl; try done.
Qed.

Lemma version_truthy (v : SemVer.t) : isTruthy (Some (SemVer.version v)) = true.
Proof.
  unfold SemVer.version. simpl.
  by destruct (pretty (SemVer.major v)).
Qed.

Ltac run_update :=
  cbv beta iota zeta delta [await throw mbind MU_bind mret MU_ret negb orb].

(** X11. When the manifest offers a version greater than the installed
    one and the message template is a string, one alert is added.  Its
    title, template and button texts are the messages of the catalog
    served for the default locale, each with its English default; the
    first [{version}] of the template is replaced by the offered version;
    the first button is the cancel button, and a second button, which
    opens the first non-empty of [url], [downloadUrl] and [link], is
    there exactly when one of them is non-empty. *)
Theorem checkForUpdates_prompts
  (response : Response) (manifest : RemoteVersionManifest) (remote current : SemVer.t)
  (template : string) (s : App) :
  ok response = true → json response = inr manifest →
  isTruthy (orElse (orElse (version manifest) (latest manifest)) (appVersion manifest))
  = true →
  coerce (orElse (orElse (version manifest) (latest manifest)) (appVersion manifest))
  = Some remote →
  coerce nativeApplicationVersion = Some current →
  SemVer.gt remote current = true →
  Spec.messageOf
    (Spec.served en fa (broken (i18n s)) (DEFAULT_LOCALE deviceLocales))
    "update.available.message"
    (Some "Version {version} is available. You can download the latest update now.")
  = JString template →
  alerts (checkForUpdates en fa deviceLocales coerce nativeApplicationVersion
            (inr response) s)
  = mkAlert
      (Spec.messageOf
         (Spec.served en fa (broken (i18n s)) (DEFAULT_LOCALE deviceLocales))
         "update.available.title" (Some "Update available"))
      (replaceFirst "{version}" (SemVer.version remote) template)
      (mkButton
         (Spec.messageOf
            (Spec.served en fa (broken (i18n s)) (DEFAULT_LOCALE deviceLocales))
            "update.available.cancel" (Some "Later"))
         (Some "cancel") None
       :: (if isTruthy (orElse (orElse (url manifest) (downloadUrl manifest))
                          (link manifest))
           then [mkButton
                   (Spec.messageOf
                      (Spec.served en fa (broken (i18n s))
                         (DEFAULT_LOCALE deviceLocales))
                      "update.available.confirm" (Some "Update"))
                   None
                   (orElse (orElse (url manifest) (downloadUrl manifest))
                      (link manifest))]
           else []))%list
      true
    :: alerts s.
Proof.
  intros Hok Hjson Hraw Hremote Hcurrent Hgt Htemplate.
  unfold checkForUpdates, attempt. run_update. rewrite Hok. run_update.
  rewrite Hjson. run_update.
  rewrite Hraw, Hremote, Hcurrent. cbn [fmap option_fmap option_map].
  rewrite !version_truthy, Hgt. run_update.
  destruct (localized_run "update.available.title" "Update available" s eq_refl)
    as (w1 & -> & Hb1 & _).
  run_update.
  destruct (localized_run "update.available.message"
              "Version {version} is available. You can download the latest update now."
              (mkApp w1 (alerts s)) eq_refl) as (w2 & -> & Hb2 & _).
  cbn [i18n alerts] in *. rewrite Hb1 in *. rewrite Htemplate.
  run_update. cbn [replaceVersion default]. run_update.
  destruct (localized_run "update.available.confirm" "Update" (mkApp w2 (alerts s))
              eq_refl)
    as (w3 & -> & Hb3 & _).
  run_update. cbn [i18n alerts] in *.
  destruct (localized_run "update.available.cancel" "Later" (mkApp w3 (alerts s))
              eq_refl)
    as (w4 & -> & Hb4 & _).
  cbn [i18n alerts] in *. rewrite Hb2 in *. rewrite Hb3.
  reflexivity.
Qed.

(** X12. A call shows at most one alert and never removes an earlier one;
    it shows one only when the response is [ok], its body is a manifest,
    both versions can be coerced and the offered version is greater than
    the installed one; the first button of the alert is the cancel
    button and there are at most two buttons. *)
Theorem checkForUpdates_alerts (fetched : Error + Response) (s : App) :
  alerts (checkForUpdates en fa deviceLocales coerce nativeApplicationVersion fetched s)
  = alerts s
  ∨ ∃ call response manifest remote current,
      alerts (checkForUpdates en fa deviceLocales coerce nativeApplicationVersion
                fetched s)
      = call :: alerts s
      ∧ fetched = inr response ∧ ok response = true ∧ json response = inr manifest
      ∧ coerce (orElse (orElse (version manifest) (latest manifest))
                  (appVersion manifest)) = Some remote
      ∧ coerce nativeApplicationVersion = Some current
      ∧ SemVer.gt remote current = true
      ∧ style <$> head (buttons call) = Some (Some "cancel")
      ∧ (length (buttons call) ≤ 2)%nat.
Proof.
  unfold checkForUpdates, attempt.
  destruct fetched as [e | response]; run_update; [by left |].
  destruct (ok response) eqn:Hok; run_update; [| by left].
  destruct (json response) as [e | manifest] eqn:Hjson; run_update; [by left |].
  destruct (isTruthy (orElse _ (appVersion manifest))) eqn:Hraw; [| by left].
  destruct (coerce (orElse _ (appVersion manifest))) as [remote|] eqn:Hremote;
    [| by left].
  destruct (coerce nativeApplicationVersion) as [current|] eqn:Hcurrent;
    cbn [fmap option_fmap option_map]; rewrite ?version_truthy; run_update;
    [| by left].
  destruct (SemVer.gt remote current) eqn:Hgt; run_update; [| by left].
  destruct (localized_run "update.available.title" "Update available" s eq_refl)
    as (w1 & -> & _). run_update.
  destruct (localized_run "update.available.message"
              "Version {version} is available. You can download the latest update now."
              (mkApp w1 (alerts s)) eq_refl) as (w2 & -> & _).
  cbn [i18n alerts]. run_update.
  destruct (Spec.messageOf _ "update.available.message" _) as [template | | | | | |];
    cbn [replaceVersion]; run_update; try by left.
  destruct (localized_run "update.available.confirm" "Update" (mkApp w2 (alerts s))
              eq_refl)
    as (w3 & -> & _). run_update. cbn [i18n alerts].
  destruct (localized_run "update.available.cancel" "Later" (mkApp w3 (alerts s))
              eq_refl)
    as (w4 & -> & _). cbn [i18n alerts].
  right. eexists _, response, manifest, remote, current.
  split; [reflexivity |]. do 7 (split; [done |]).
  cbn [buttons].
  destruct (isTruthy (orElse (orElse (url manifest) _) _)); simpl; lia.
Qed.

Lemma gt_irreflexive (v : SemVer.t) : SemVer.gt v v = false.
Proof. unfold SemVer.gt. by rewrite !N.compare_refl. Qed.

(** X10. An application that is up to date is not prompted: when the
    version the manifest offers coerces to the same version as the
    installed one (as it does when the two texts are equal), or neither
    can be coerced, the call changes nothing. *)
Theorem checkForUpdates_up_to_date
  (response : Response) (manifest : RemoteVersionManifest) (s : App) :
  ok response = true → json response = inr manifest →
  coerce (orElse (orElse (version manifest) (latest manifest)) (appVersion manifest))
  = coerce nativeApplicationVersion →
  checkForUpdates en fa deviceLocales coerce nativeApplicationVersion (inr response) s
  = s.
Proof.
  intros Hok Hjson Hsame.
  unfold checkForUpdates, attempt. run_update. rewrite Hok. run_update.
  rewrite Hjson. run_update. rewrite Hsame.
  destruct (isTruthy (orElse _ (appVersion manifest)));
    destruct (coerce nativeApplicationVersion) as [v|];
    cbn [fmap option_fmap option_map]; rewrite ?version_truthy, ?gt_irreflexive;
    reflexivity.
Qed.

End UpdateFacts.

Lemma checkForUpdates_up_to_date_witness :
  Update.checkForUpdates Demo.en Demo.fa ["fa-IR"] UpdateDemo.coerce (Some "2.4.1")
    (inr UpdateDemo.offer241) (Update.mkApp Demo.healthy [])
  = Update.mkApp Demo.healthy [].
Proof.
  apply (checkForUpdates_up_to_date Demo.en Demo.fa ["fa-IR"] UpdateDemo.coerce
           (Some "2.4.1") UpdateDemo.offer241
           (Update.mkManifest None None (Some "2.4.1") None None None));
    reflexivity.
Defined.

Lemma checkForUpdates_prompts_witness :
  Update.alerts
    (Update.checkForUpdates Demo.en Demo.fa ["fa-IR"] UpdateDemo.coerce (Some "2.4.1")
       (inr UpdateDemo.offer250) (Update.mkApp Demo.healthy []))
  = [Update.mkAlert (JString "Update available")
       "Version 2.5.0 is available. You can download the latest update now."
       [Update.mkButton (JString "Later") (Some "cancel") None;
        Update.mkButton (JString "Update") None (Some "https://edu97.ir/app/latest.apk")]
       true].
Proof.
  apply (checkForUpdates_prompts Demo.en Demo.fa ["fa-IR"] UpdateDemo.coerce
           (Some "2.4.1") UpdateDemo.offer250
           (Update.mkManifest (Some "") (Some "2.5.0") None None
              (Some "https://edu97.ir/app/latest.apk") (Some "https://edu97.ir"))
           (SemVer.make 2 5 0) (SemVer.make 2 4 1)
           "Version {version} is available. You can download the latest update now.");
    vm_compute; reflexivity.
Defined.

(** * The morning greeting preference *)

(** X13. When the database, the user id and the request all succeed, the
    toggle shows the value asked for, nothing is logged, and exactly one
    preference is sent: category [MORNING_GREETING], name [enabled], the
    id of the current user, and a value that the observer of the settings
    screen reads back as the value asked for. *)
Theorem onMorningGreetingChange_round_trip
  (MORNING_GREETING : string) (env : Preference.SaveEnv) (userId : string)
  (v : bool) (s : Settings.Screen) :
  Preference.getServerDatabaseAndOperator env = inr tt →
  Preference.getCurrentUserId env = inr userId →
  Preference.savePreference env = inr tt →
  ∃ pref,
    Settings.onMorningGreetingChange MORNING_GREETING env v s
    = Settings.mkScreen v
        (Preference.mkEffects
           ([pref] :: Preference.saved (Settings.effects s))
           (Preference.failures (Settings.effects s)))
    ∧ Preference.category pref = MORNING_GREETING
    ∧ Preference.name pref = "enabled"
    ∧ Preference.user_id pref = userId
    ∧ Settings.morningGreetingEnabled [pref] = v.
Proof.
  intros Hdb Huser Hsave.
  unfold Settings.onMorningGreetingChange, Settings.trySave.
  rewrite Hdb, Huser, Hsave. simpl.
  eexists. split; [reflexivity |]. by destruct v.
Qed.

Lemma onMorningGreetingChange_round_trip_witness :
  ∃ pref,
    Settings.onMorningGreetingChange "morning_greeting"
      (Preference.mkSaveEnv (inr tt) (inr "u1") (inr tt)) false
      (Settings.mkScreen true (Preference.mkEffects [] []))
    = Settings.mkScreen false (Preference.mkEffects [[pref]] [])
    ∧ Settings.morningGreetingEnabled [pref] = false.
Proof.
  destruct (onMorningGreetingChange_round_trip "morning_greeting"
              (Preference.mkSaveEnv (inr tt) (inr "u1") (inr tt)) "u1" false
              (Settings.mkScreen true (Preference.mkEffects [] []))
              eq_refl eq_refl eq_refl) as (pref & Hrun & _ & _ & _ & Hread).
  exists pref. split; [exact Hrun | exact Hread].
Defined.

(** X14. The toggle ends in one of two ways.  Either every step
    succeeded: it shows the value asked for, one request was made and
    nothing was logged.  Or a step threw: it shows the opposite of the
    value asked for, whatever it showed before, the failure is logged
    once, and a request was made only if the failing step was the
    request itself. *)
Theorem onMorningGreetingChange_outcomes
  (MORNING_GREETING : string) (env : Preference.SaveEnv) (v : bool)
  (s : Settings.Screen) :
  (Settings.isGreetingEnabled (Settings.onMorningGreetingChange MORNING_GREETING env v s)
   = v
   ∧ Preference.failures
       (Settings.effects (Settings.onMorningGreetingChange MORNING_GREETING env v s))
     = Preference.failures (Settings.effects s)
   ∧ length (Preference.saved
               (Settings.effects
                  (Settings.onMorningGreetingChange MORNING_GREETING env v s)))
     = S (length (Preference.saved (Settings.effects s))))
  ∨ ∃ e,
      Settings.isGreetingEnabled
        (Settings.onMorningGreetingChange MORNING_GREETING env v s) = negb v
      ∧ Preference.failures
          (Settings.effects (Settings.onMorningGreetingChange MORNING_GREETING env v s))
        = ("Failed to save morning greeting preference", e)
          :: Preference.failures (Settings.effects s)
      ∧ (Preference.saved
           (Settings.effects (Settings.onMorningGreetingChange MORNING_GREETING env v s))
         = Preference.saved (Settings.effects s)
         ∨ Preference.savePreference env = inl e).
Proof.
  unfold Settings.onMorningGreetingChange, Settings.trySave.
  destruct (Preference.getServerDatabaseAndOperator env) as [e | db]; simpl.
  { right. exists e. auto. }
  destruct (Preference.getCurrentUserId env) as [e | userId]; simpl.
  { right. exists e. auto. }
  destruct (Preference.savePreference env) as [e | done]; simpl.
  - right. exists e. auto.
  - left. auto.
Qed.

(** * The back button of the channel list *)

Lemma clearTimeout_only h : BackPress.clearTimeout h [h] = [].
Proof.
  unfold BackPress.clearTimeout. rewrite filter_cons, decide_False by auto. done.
Qed.

Lemma clearTimeout_nil h : BackPress.clearTimeout h [] = [].
Proof. done. Qed.

(** X15. In every state the screen can reach, the counter is 0 or 1 and
    at most one timer is pending: the counter is 0 with no timer
    pending, or it is 1 and the one pending timer is the timer held in
    [backPressTimeout], so the counter always goes back to 0 when that
    timer fires. *)
Theorem backPress_invariant (st : BackPress.State) :
  BackPress.reachable st →
  (BackPress.backPressedCount st = 0%nat ∧ BackPress.pending st = [])
  ∨ (BackPress.backPressedCount st = 1%nat
     ∧ ∃ h, BackPress.backPressTimeout st = Some h ∧ BackPress.pending st = [h]
            ∧ BackPress.backPressedCount (BackPress.timeoutFires h st) = 0%nat
            ∧ BackPress.pending (BackPress.timeoutFires h st) = []).
Proof.
  unfold BackPress.reachable. revert st. apply rtc_ind_r; [by left |].
  intros st st' Hreach Hstep IH.
  destruct Hstep as [p st | h st Hpending].
  - unfold BackPress.handleBackPress.
    destruct (BackPress.isMainActivity p); [| done].
    destruct IH as [[Hcount Hpend] | (Hcount & h & Hh & Hpend & _)].
    + rewrite Hcount. simpl.
      destruct (BackPress.navigationIsFocused p && _ && _); simpl.
      * right. split; [done |]. rewrite Hpend.
        assert (match BackPress.backPressTimeout st with
                | Some h => BackPress.clearTimeout h []
                | None => []
                end = []) as -> by (by destruct (BackPress.backPressTimeout st)).
        eexists. split; [done |]. split; [done |].
        unfold BackPress.timeoutFires. simpl. by rewrite !clearTimeout_only.
      * destruct (_ && _); simpl; by left.
    + rewrite Hcount. simpl.
      destruct (_ && _); simpl; right; (split; [done |]); exists h;
        unfold BackPress.timeoutFires; simpl;
        rewrite ?Hh, ?Hpend, ?clearTimeout_only; done.
  - destruct IH as [[_ Hpend] | (_ & h' & Hh' & Hpend & _)].
    + rewrite Hpend in Hpending. by apply elem_of_nil in Hpending.
    + rewrite Hpend in Hpending. apply list_elem_of_singleton in Hpending as ->.
      left. unfold BackPress.timeoutFires. rewrite Hh', Hpend, !clearTimeout_only.
      done.
Qed.

Lemma backPress_invariant_witness :
  ∃ h,
    BackPress.backPressTimeout
      (BackPress.handleBackPress (BackPress.mkPress true true true true)
         BackPress.initial).2
    = Some h
    ∧ BackPress.pending
        (BackPress.handleBackPress (BackPress.mkPress true true true true)
           BackPress.initial).2
      = [h]
    ∧ BackPress.backPressedCount
        (BackPress.timeoutFires h
           (BackPress.handleBackPress (BackPress.mkPress true true true true)
              BackPress.initial).2)
      = 0%nat.
Proof.
  destruct (backPress_invariant
              (BackPress.handleBackPress (BackPress.mkPress true true true true)
                 BackPress.initial).2)
    as [[Hcount _] | (_ & h & Hh & Hpending & Hfired & _)].
  - unfold BackPress.reachable. apply rtc_once, BackPress.step_press.
  - vm_compute in Hcount. discriminate Hcount.
  - exists h. split; [exact Hh |]. split; [exact Hpending | exact Hfired].
Defined.

(** X16. Press twice to leave.  With the counter at 0, a press on the
    focused home screen of the main activity is consumed and shows the
    toast; the same press again, before the timer fires, is not consumed
    and changes nothing; and once the timer has fired the press is
    consumed again. *)
Theorem backPress_twice (st : BackPress.State) :
  BackPress.backPressedCount st = 0%nat →
  (BackPress.handleBackPress (BackPress.mkPress true true true true) st).1 = true
  ∧ BackPress.toasts
      (BackPress.handleBackPress (BackPress.mkPress true true true true) st).2
    = S (BackPress.toasts st)
  ∧ BackPress.handleBackPress (BackPress.mkPress true true true true)
      (BackPress.handleBackPress (BackPress.mkPress true true true true) st).2
    = (false, (BackPress.handleBackPress (BackPress.mkPress true true true true) st).2)
  ∧ ∀ h,
      (BackPress.handleBackPress (BackPress.mkPress true true true true)
         (BackPress.timeoutFires h
            (BackPress.handleBackPress (BackPress.mkPress true true true true) st).2)).1
      = true.
Proof.
  intros Hcount. unfold BackPress.handleBackPress. simpl. rewrite Hcount. simpl.
  done.
Qed.

Lemma backPress_twice_witness :
  BackPress.handleBackPress (BackPress.mkPress true true true true)
    (BackPress.handleBackPress (BackPress.mkPress true true true true)
       BackPress.initial).2
  = (false,
     (BackPress.handleBackPress (BackPress.mkPress true true true true)
        BackPress.initial).2).
Proof. apply (backPress_twice BackPress.initial). reflexivity. Defined.

(** * The morning greeting *)

Section GreetingFacts.

Import Greeting.

Variable MORNING_GREETING : string.
Variable trim : string → string.
Variable fallbackName : string.

Lemma greetingName_nonempty (user : UserModel) :
  fallbackName ≠ "" → greetingName trim fallbackName user ≠ "".
Proof.
  intros Hfallback. unfold greetingName, orString.
  match goal with |- context [String.eqb ?x ""] =>
    by destruct (String.eqb_spec x "")
  end.
Qed.

Lemma tryPersist_saves env today fx r fx' :
  tryPersist MORNING_GREETING env today fx = (r, fx') →
  Preference.saved fx' = Preference.saved fx
  ∨ ∃ userId,
      Preference.saved fx'
      = [Preference.mkPreference MORNING_GREETING "last_shown" userId today]
        :: Preference.saved fx.
Proof.
  unfold tryPersist.
  destruct (Preference.getServerDatabaseAndOperator env) as [e | db];
    [intros [= <- <-]; by left |].
  destruct (Preference.getCurrentUserId env) as [e | userId];
    [intros [= <- <-]; by left |].
  destruct (Preference.savePreference env) as [e | ok]; intros [= <- <-];
    right; by exists userId.
Qed.

Lemma maybeShowGreeting_shown
  (props : Props) (now : Clock) (env : Preference.SaveEnv) (s : Screen) :
  maybeShowGreeting MORNING_GREETING trim fallbackName props now env s = s
  ∨ hasShownGreeting
      (maybeShowGreeting MORNING_GREETING trim fallbackName props now env s) = true.
Proof.
  unfold maybeShowGreeting.
  destruct (negb (morningGreetingEnabled props) || hasShownGreeting s); [by left |].
  destruct (currentUser props) as [user|]; [| by left].
  destruct ((hour now <? 5)%nat || (12 <=? hour now)%nat); [by left |].
  case_decide; [by left |].
  right. by destruct (tryPersist _ _ _ _) as [[[] | e] fx].
Qed.

(** X17. One run of the effect greets at most once, and only when the
    greeting is enabled, has not been shown by this screen, a current
    user is known, the hour is from 5 to 11 and the day differs from the
    day of the last greeting; otherwise it changes nothing.  When it
    greets, the screen remembers it, and the name is not empty unless the
    translated fallback name is. *)
Theorem maybeShowGreeting_guarded
  (props : Props) (now : Clock) (env : Preference.SaveEnv) (s : Screen) :
  maybeShowGreeting MORNING_GREETING trim fallbackName props now env s = s
  ∨ ∃ user,
      greeted (maybeShowGreeting MORNING_GREETING trim fallbackName props now env s)
      = greetingName trim fallbackName user :: greeted s
      ∧ hasShownGreeting
          (maybeShowGreeting MORNING_GREETING trim fallbackName props now env s) = true
      ∧ currentUser props = Some user
      ∧ morningGreetingEnabled props = true
      ∧ hasShownGreeting s = false
      ∧ (5 ≤ hour now < 12)%nat
      ∧ lastMorningGreeting props ≠ Some (todayKey now)
      ∧ (fallbackName ≠ "" → greetingName trim fallbackName user ≠ "").
Proof.
  unfold maybeShowGreeting.
  destruct (morningGreetingEnabled props) eqn:Henabled; cbn [negb orb]; [| by left].
  destruct (hasShownGreeting s) eqn:Hshown; [by left |].
  destruct (currentUser props) as [user|] eqn:Huser; [| by left].
  destruct (hour now <? 5)%nat eqn:Hearly; cbn [orb]; [by left |].
  destruct (12 <=? hour now)%nat eqn:Hlate; [by left |].
  case_decide as Hlast; [by left |].
  apply Nat.ltb_ge in Hearly. apply Nat.leb_gt in Hlate.
  right. exists user.
  destruct (tryPersist _ _ _ _) as [[[] | e] fx];
    (do 7 (split; [done || lia |])); apply greetingName_nonempty.
Qed.

(** X18. A greeting is not repeated.  After a run that greeted, every
    later run on the same screen changes nothing, whatever the
    properties, the time and the outcome of saving; and when that run
    sent its preference, it sent the day of the greeting under
    [last_shown], so that a new screen that receives the value sent as
    [lastMorningGreeting] does not greet on that day either. *)
Theorem maybeShowGreeting_not_repeated
  (props props' : Props) (now now' : Clock) (env env' : Preference.SaveEnv)
  (s fresh : Screen) :
  greeted (maybeShowGreeting MORNING_GREETING trim fallbackName props now env s)
  ≠ greeted s →
  maybeShowGreeting MORNING_GREETING trim fallbackName props' now' env'
    (maybeShowGreeting MORNING_GREETING trim fallbackName props now env s)
  = maybeShowGreeting MORNING_GREETING trim fallbackName props now env s
  ∧ (Preference.saved
       (effects (maybeShowGreeting MORNING_GREETING trim fallbackName props now env s))
     = Preference.saved (effects s)
     ∨ ∃ pref,
         Preference.saved
           (effects
              (maybeShowGreeting MORNING_GREETING trim fallbackName props now env s))
         = [pref] :: Preference.saved (effects s)
         ∧ Preference.category pref = MORNING_GREETING
         ∧ Preference.name pref = "last_shown"
         ∧ Preference.value pref = todayKey now
         ∧ (lastMorningGreeting props' = Some (Preference.value pref) →
            todayKey now' = todayKey now →
            maybeShowGreeting MORNING_GREETING trim fallbackName props' now' env' fresh
            = fresh)).
Proof.
  intros Hgreeted.
  destruct (maybeShowGreeting_shown props now env s) as [Hsame | Hshown];
    [by rewrite Hsame in Hgreeted |].
  split.
  - unfold maybeShowGreeting at 1. rewrite Hshown. by rewrite orb_true_r.
  - clear Hshown. unfold maybeShowGreeting in *.
    destruct (negb (morningGreetingEnabled props) || hasShownGreeting s); [by left |].
    destruct (currentUser props) as [u|]; [| by left].
    destruct ((hour now <? 5)%nat || (12 <=? hour now)%nat); [by left |].
    case_decide; [by left |].
    destruct (tryPersist MORNING_GREETING env (todayKey now) (effects s))
      as [r fx] eqn:Hpersist.
    apply tryPersist_saves in Hpersist as [Hsaved | [userId Hsaved]].
    + left. by destruct r.
    + right.
      exists (Preference.mkPreference MORNING_GREETING "last_shown" userId (todayKey now)).
      split; [by destruct r |]. do 3 (split; [done |]).
      cbn [Preference.value]. intros Hlast Hday.
      destruct (negb (morningGreetingEnabled props') || hasShownGreeting fresh);
        [done |].
      destruct (currentUser props'); [| done].
      destruct ((hour now' <? 5)%nat || (12 <=? hour now')%nat); [done |].
      rewrite decide_True; [done | by rewrite Hlast, Hday].
Qed.

End GreetingFacts.

Lemma maybeShowGreeting_not_repeated_witness :
  Greeting.maybeShowGreeting "morning_greeting" (λ text, text) "student"
    (Greeting.mkProps true (Some (Greeting.mkUser None "")) (Some "2025-03-02"))
    (Greeting.mkClock 11 "2025-03-03")
    (Preference.mkSaveEnv (inr tt) (inl "no current user") (inr tt))
    (Greeting.maybeShowGreeting "morning_greeting" (λ text, text) "student"
       (Greeting.mkProps true (Some (Greeting.mkUser None "")) (Some "2025-03-02"))
       (Greeting.mkClock 8 "2025-03-03")
       (Preference.mkSaveEnv (inr tt) (inr "u1") (inr tt))
       (Greeting.mkScreen false [] (Preference.mkEffects [] [])))
  = Greeting.mkScreen true ["student"]
      (Preference.mkEffects
         [[Preference.mkPreference "morning_greeting" "last_shown" "u1" "2025-03-03"]]
         []).
Proof.
  apply (maybeShowGreeting_not_repeated "morning_greeting" (λ text, text) "student"
           (Greeting.mkProps true (Some (Greeting.mkUser None "")) (Some "2025-03-02"))
           (Greeting.mkProps true (Some (Greeting.mkUser None "")) (Some "2025-03-02"))
           (Greeting.mkClock 8 "2025-03-03") (Greeting.mkClock 11 "2025-03-03")
           (Preference.mkSaveEnv (inr tt) (inr "u1") (inr tt))
           (Preference.mkSaveEnv (inr tt) (inl "no current user") (inr tt))
           (Greeting.mkScreen false [] (Preference.mkEffects [] []))
           (Greeting.mkScreen false [] (Preference.mkEffects [] []))).
  vm_compute. discriminate.
Defined.

(** * The login form *)

(** X19. After the login request has resolved, the form is no longer
    loading and exactly one thing has happened.  A failed login whose
    server error is one of the two expected MFA errors opens the MFA
    screen and shows no error; any other failed login with an error
    shows its message and navigates nowhere; and in every other case,
    a failed login without an error included, the application goes
    home, flagged with an error when the launch or the response had
    one. *)
Theorem signIn_outcomes
  (E : Type) (toBoolean : E → bool) (getServerError : option E → option string)
  (isServerError : E → option string) (isErrorWithMessage isString : E → bool)
  (getFullErrorMessage : E → string) (invalidCredentials : string)
  (launchError : bool) (result : Login.LoginActionResponse E) (f : Login.Form) :
  Login.isLoading
    (Login.signIn E toBoolean getServerError isServerError isErrorWithMessage isString
       getFullErrorMessage invalidCredentials launchError result f) = false
  ∧ ((Login.signIn E toBoolean getServerError isServerError isErrorWithMessage isString
        getFullErrorMessage invalidCredentials launchError result f
      = Login.mkForm false (Login.error f) (Login.ToMfa :: Login.navigated f)
      ∧ Login.failed E result = true
      ∧ ∃ id, getServerError (Login.loginError E result) = Some id
              ∧ id ∈ Login.MFA_EXPECTED_ERRORS)
     ∨ (∃ e,
          Login.signIn E toBoolean getServerError isServerError isErrorWithMessage
            isString getFullErrorMessage invalidCredentials launchError result f
          = Login.mkForm false
              (Some (Login.getLoginErrorMessage E isServerError isErrorWithMessage
                       isString getFullErrorMessage invalidCredentials e))
              (Login.navigated f)
          ∧ Login.failed E result = true
          ∧ Login.loginError E result = Some e ∧ toBoolean e = true
          ∧ Login.isMFAError E getServerError (Login.loginError E result) = false)
     ∨ (Login.signIn E toBoolean getServerError isServerError isErrorWithMessage
          isString getFullErrorMessage invalidCredentials launchError result f
        = Login.mkForm false (Login.error f)
            (Login.ToHome
               (launchError || Login.truthyError E toBoolean (Login.loginError E result))
             :: Login.navigated f)
        ∧ (Login.failed E result = false
           ∨ Login.truthyError E toBoolean (Login.loginError E result) = false))).
Proof.
  unfold Login.signIn, Login.checkLoginResponse, Login.goToHome.
  destruct (Login.failed E result) eqn:Hfailed; cbn [andb].
  - destruct (Login.isMFAError E getServerError (Login.loginError E result)) eqn:Hmfa.
    + split; [done |]. left. split; [done |]. split; [done |].
      unfold Login.isMFAError in Hmfa.
      destruct (getServerError (Login.loginError E result)) as [id|]; [| done].
      exists id. split; [done |].
      destruct (String.eqb id ""); [done |]. by apply bool_decide_eq_true in Hmfa.
    + destruct (Login.loginError E result) as [e|] eqn:He.
      * destruct (toBoolean e) eqn:Hbool; (split; [done |]).
        -- right. left. by exists e.
        -- right. right. simpl. rewrite Hbool. auto.
      * split; [done |]. right. right. simpl. auto.
  - destruct (Login.loginError E result) as [e|]; (split; [done |]);
      right; right; auto.
Qed.
